(** * Hessian-free conjugate-gradient fitting of Gaussian peaks

    A shallow embedding of the notebook [Tutorial.ipynb]: the Gaussian model
    and its three partial derivatives, the finite-difference Hessian-vector
    product, the step-size and conjugate coefficients, and the (unfinished)
    driver cells.

    Numbers.  A NumPy [float64] is read in two ways.

    - Idealised ([float64] below): a finite value is a real number and
      arithmetic on finite values is exact; the IEEE special values [inf],
      [-inf] and [nan] are kept, with NumPy's rules for them, because NumPy
      does not raise on a division by zero but returns one of them; zero is
      unsigned.  This reading carries what does not depend on rounding:
      shapes and broadcasting, the exceptions raised and their order, the
      formula each cell evaluates, divisions by zero.

    - Binary64 (module [b64]): IEEE 754 double precision as the processor
      has it, with rounding to nearest, overflow, underflow and signed
      zero.  The exponential and the powers, which the notebook takes from
      the C library and from NumPy's loops, are parameters, known only
      through the values the C standard fixes for them.  This reading
      carries what rounding or overflow decides: the symmetry of the
      Gaussian, the sign of its values, the Hessian-vector product along
      the zero direction.

    Arrays.  A one-dimensional array is a list; an (N, 3) block is a list of
    rows.  Shape mismatches raise as NumPy does, so every array operation
    lives in a small error monad. *)

From Stdlib Require Import Reals Lra Lia List Arith Bool.
From Stdlib Require Floats.
Import ListNotations.

Set Implicit Arguments.

(* ================================================================== *)
(** ** Exceptions and the error monad *)

(** The Python exceptions the cells can raise.  [ConfigurationError] is the
    error kind named by the specification; no cell of the notebook raises
    it. *)
Inductive exn : Type :=
| IndexError
| TypeError
| ValueError
| ConfigurationError.

Inductive result (A : Type) : Type :=
| Ok (a : A)
| Raise (e : exn).

Arguments Ok {A} a.
Arguments Raise {A} e.

Definition bind {A B : Type} (m : result A) (k : A -> result B) : result B :=
  match m with
  | Ok a => k a
  | Raise e => Raise e
  end.

Notation "x <- m ;; k" := (bind m (fun x => k))
  (at level 61, m at next level, right associativity).

(* ================================================================== *)
(** ** Idealised float64 *)

Inductive float64 : Type :=
| Fin (r : R)
| PInf
| NInf
| NaN.

Definition is_finite (v : float64) : Prop :=
  match v with Fin _ => True | _ => False end.

Local Open Scope R_scope.

(** The infinity that carries the sign of [r]; [nan] when [r] is zero
    (this is [r * inf], and also [r / 0]). *)
Definition signed_inf (r : R) : float64 :=
  match total_order_T 0 r with
  | inleft (left _) => PInf
  | inleft (right _) => NaN
  | inright _ => NInf
  end.

(** [np.sign] on a real. *)
Definition Rsign (r : R) : R :=
  match total_order_T 0 r with
  | inleft (left _) => 1
  | inleft (right _) => 0
  | inright _ => -1
  end.

Definition fneg (a : float64) : float64 :=
  match a with
  | Fin x => Fin (- x)
  | PInf => NInf
  | NInf => PInf
  | NaN => NaN
  end.

Definition fadd (a b : float64) : float64 :=
  match a, b with
  | NaN, _ | _, NaN => NaN
  | Fin x, Fin y => Fin (x + y)
  | PInf, NInf | NInf, PInf => NaN
  | PInf, _ | _, PInf => PInf
  | NInf, _ | _, NInf => NInf
  end.

Definition fsub (a b : float64) : float64 := fadd a (fneg b).

Definition fmul (a b : float64) : float64 :=
  match a, b with
  | NaN, _ | _, NaN => NaN
  | Fin x, Fin y => Fin (x * y)
  | Fin x, PInf | PInf, Fin x => signed_inf x
  | Fin x, NInf | NInf, Fin x => signed_inf (- x)
  | PInf, PInf | NInf, NInf => PInf
  | PInf, NInf | NInf, PInf => NInf
  end.

Definition fdiv (a b : float64) : float64 :=
  match a, b with
  | NaN, _ | _, NaN => NaN
  | Fin x, Fin y => if Req_dec_T y 0 then signed_inf x else Fin (x / y)
  | Fin _, PInf | Fin _, NInf => Fin 0
  | PInf, Fin y => if Rlt_dec y 0 then NInf else PInf
  | NInf, Fin y => if Rlt_dec y 0 then PInf else NInf
  | _, _ => NaN
  end.

(** [x ** n] for the integer exponents the notebook uses (2 and 3). *)
Fixpoint fpow (a : float64) (n : nat) : float64 :=
  match n with
  | O => Fin 1
  | S k => fmul a (fpow a k)
  end.

Arguments fneg !a : simpl nomatch.
Arguments fadd !a !b : simpl nomatch.
Arguments fmul !a !b : simpl nomatch.
Arguments fdiv !a !b : simpl nomatch.

Declare Scope float_scope.
Delimit Scope float_scope with f64.
Bind Scope float_scope with float64.
Infix "+" := fadd : float_scope.
Infix "-" := fsub : float_scope.
Infix "*" := fmul : float_scope.
Infix "/" := fdiv : float_scope.
Notation "- x" := (fneg x) : float_scope.
Notation "x ** n" := (fpow x n) (at level 30, right associativity) : float_scope.

(** The NumPy element-wise functions, on one float. *)
Module f64.

Definition sqrt (a : float64) : float64 :=
  match a with
  | Fin x => if Rlt_dec x 0 then NaN else Fin (R_sqrt.sqrt x)
  | PInf => PInf
  | NInf => NaN
  | NaN => NaN
  end.

Definition exp (a : float64) : float64 :=
  match a with
  | Fin x => Fin (Rtrigo_def.exp x)
  | PInf => PInf
  | NInf => Fin 0
  | NaN => NaN
  end.

Definition abs (a : float64) : float64 :=
  match a with
  | Fin x => Fin (Rabs x)
  | PInf => PInf
  | NInf => PInf
  | NaN => NaN
  end.

Definition sign (a : float64) : float64 :=
  match a with
  | Fin x => Fin (Rsign x)
  | PInf => Fin 1
  | NInf => Fin (-1)
  | NaN => NaN
  end.

Definition divide (a b : float64) : float64 := fdiv a b.

End f64.

Local Open Scope float_scope.

(* ================================================================== *)
(** ** Arrays and broadcasting *)

(** A Python scalar (or 0-d value) or a one-dimensional array. *)
Inductive ndarray : Type :=
| Scalar (v : float64)
| Array (l : list float64).

Definition items (a : ndarray) : list float64 :=
  match a with
  | Scalar v => [v]
  | Array l => l
  end.

Definition is_scalar (a : ndarray) : bool :=
  match a with
  | Scalar _ => true
  | Array _ => false
  end.

Definition map2 {A B C : Type} (f : A -> B -> C) (a : list A) (b : list B)
  : list C :=
  map (fun p => f (fst p) (snd p)) (combine a b).

(** NumPy's broadcasting along one axis: equal lengths pair up, a length of
    one is stretched, anything else is a [ValueError]. *)
Definition broadcast2 {A B C : Type} (f : A -> B -> C)
    (a : list A) (b : list B) : result (list C) :=
  if length a =? length b then Ok (map2 f a b)
  else match a, b with
       | [x], _ => Ok (map (f x) b)
       | _, [y] => Ok (map (fun x => f x y) a)
       | _, _ => Raise ValueError
       end.

(** A binary element-wise operator on scalars and arrays. *)
Definition nd_binop (f : float64 -> float64 -> float64) (a b : ndarray)
  : result ndarray :=
  ys <- broadcast2 f (items a) (items b) ;;
  Ok (if is_scalar a && is_scalar b then Scalar (hd NaN ys) else Array ys).

Definition nd_map (f : float64 -> float64) (a : ndarray) : ndarray :=
  match a with
  | Scalar v => Scalar (f v)
  | Array l => Array (map f l)
  end.

(** The value of an array expression: an array, or the exception raised
    while it was evaluated.  A variable that holds an array is an expression
    that is evaluated already. *)
Definition rnd : Type := result ndarray.

Definition ret_nd (a : ndarray) : rnd := Ok a.

Coercion ret_nd : ndarray >-> rnd.

(** Operands are evaluated from left to right, then combined. *)
Definition ufunc1 (f : float64 -> float64) (a : rnd) : rnd :=
  a' <- a ;; Ok (nd_map f a').

Definition ufunc2 (f : float64 -> float64 -> float64) (a b : rnd) : rnd :=
  a' <- a ;; b' <- b ;; nd_binop f a' b'.

(** A float literal. *)
Definition lit (r : R) : rnd := Ok (Scalar (Fin r)).

(** A call whose four arguments are expressions. *)
Definition call4 (f : ndarray -> ndarray -> ndarray -> ndarray -> rnd)
    (a b c d : rnd) : rnd :=
  a' <- a ;; b' <- b ;; c' <- c ;; d' <- d ;; f a' b' c' d'.

Declare Scope nd_scope.
Delimit Scope nd_scope with nd.
Bind Scope nd_scope with rnd.
Infix "+" := (ufunc2 fadd) : nd_scope.
Infix "-" := (ufunc2 fsub) : nd_scope.
Infix "*" := (ufunc2 fmul) : nd_scope.
Infix "/" := (ufunc2 fdiv) : nd_scope.
Notation "- x" := (ufunc1 fneg x) : nd_scope.
Notation "x ** n" := (ufunc1 (fun v => fpow v n) x) : nd_scope.

(** The NumPy functions the cells call, on array expressions. *)
Module np.

Definition pi : rnd := lit PI.

Definition sqrt : rnd -> rnd := ufunc1 f64.sqrt.

Definition exp : rnd -> rnd := ufunc1 f64.exp.

Definition abs : rnd -> rnd := ufunc1 f64.abs.

Definition sign : rnd -> rnd := ufunc1 f64.sign.

Definition divide : rnd -> rnd -> rnd := ufunc2 f64.divide.

(** The transpose of a scalar or of a one-dimensional array is itself. *)
Definition transpose (a : rnd) : rnd := a.

End np.

Definition zeros_like (x : list float64) : list float64 :=
  map (fun _ => Fin 0) x.

Definition ones_like (x : list float64) : list float64 :=
  map (fun _ => Fin 1) x.

(** One row of an (N, 3) block: the columns 0, 1 and 2. *)
Record row : Type := Row { col0 : float64; col1 : float64; col2 : float64 }.

Definition block : Type := list row.

Definition row_map (f : float64 -> float64) (r : row) : row :=
  Row (f (col0 r)) (f (col1 r)) (f (col2 r)).

Definition row_map2 (f : float64 -> float64 -> float64) (r s : row) : row :=
  Row (f (col0 r) (col0 s)) (f (col1 r) (col1 s)) (f (col2 r) (col2 s)).

(** [np.dot] of two rows. *)
Definition dot3 (r s : row) : float64 :=
  col0 r * col0 s + col1 r * col1 s + col2 r * col2 s.

(** [np.concatenate((a[:,None], b[:,None], c[:,None]), axis=1)]: indexing
    with [[:,None]] needs a one-dimensional array, and the three columns must
    have one length. *)
Definition concatenate_columns (a b c : ndarray) : result block :=
  match a, b, c with
  | Array la, Array lb, Array lc =>
      if (length la =? length lb) && (length lb =? length lc)
      then Ok (map2 (fun p z => Row (fst p) (snd p) z) (combine la lb) lc)
      else Raise ValueError
  | _, _, _ => Raise IndexError
  end.

(* ================================================================== *)
(** ** The cells on arrays *)

Definition gaussian (x I mu sigma : ndarray) : rnd :=
  (diff <- x - mu ;;
   dist <- diff ** 2 ;;
   exponential <-
     np.exp (np.divide (- dist) (lit 2 * sigma ** 2 + lit 1e-11)) ;;
   amplitude <-
     np.divide (np.abs I) (np.sqrt (lit 2 * np.pi) * sigma + lit 1e-11) ;;
   amplitude * exponential)%nd.

Definition gaussian_partial_I (x I mu sigma : ndarray) : rnd :=
  (diff <- x - mu ;;
   dist <- diff ** 2 ;;
   exponential <-
     np.exp (np.divide (- dist) (lit 2 * sigma ** 2 + lit 1e-11)) ;;
   amplitude <-
     np.divide (np.sign I) (np.sqrt (lit 2 * np.pi) * sigma + lit 1e-11) ;;
   np.transpose (amplitude * exponential))%nd.

Definition gaussian_partial_mu (x I mu sigma : ndarray) : rnd :=
  (diff <- x - mu ;;
   dist <- diff ** 2 ;;
   exponential <-
     np.exp (np.divide (- dist) (lit 2 * sigma ** 2 + lit 1e-11)) ;;
   amplitude <- I * (x - mu) / (np.sqrt (lit 2 * np.pi) * sigma ** 3) ;;
   np.transpose (amplitude * exponential))%nd.

Definition gaussian_partial_sigma (x I mu sigma : ndarray) : rnd :=
  (diff <- x - mu ;;
   dist <- diff ** 2 ;;
   exponential <-
     np.exp (np.divide (- dist) (lit 2 * sigma ** 2 + lit 1e-11)) ;;
   amplitude <-
     np.divide (I * ((x - mu) ** 2 / sigma ** 2 - lit 1))
               (np.sqrt (lit 2 * np.pi) * sigma ** 2 + lit 1e-11) ;;
   np.transpose (amplitude * exponential))%nd.

(** The first cell as the notebook's earlier version has it: the amplitude
    has no regulariser.  The cell above replaces it. *)
Definition gaussian_draft (x I mu sigma : ndarray) : rnd :=
  (diff <- x - mu ;;
   dist <- diff ** 2 ;;
   exponential <- np.exp (- dist / (lit 2 * sigma ** 2 + lit 1e-11)) ;;
   amplitude <- np.abs I / (np.sqrt (lit 2 * np.pi) * sigma) ;;
   amplitude * exponential)%nd.

Definition gaussian_gradient (x : list float64) (I mu sigma : float64)
    (direction_vector : option block) : result block :=
  match direction_vector with
  | None =>
      partial_I <-
        gaussian_partial_I (Array x) (Scalar I) (Scalar mu) (Scalar sigma) ;;
      partial_mu <-
        gaussian_partial_mu (Array x) (Scalar I) (Scalar mu) (Scalar sigma) ;;
      partial_sigma <-
        gaussian_partial_sigma (Array x) (Scalar I) (Scalar mu) (Scalar sigma) ;;
      concatenate_columns partial_I partial_mu partial_sigma
  | Some direction_vector =>
      I <- (Array (ones_like x) * Scalar I)%nd ;;
      mu <- (Array (ones_like x) * Scalar mu)%nd ;;
      sigma <- (Array (ones_like x) * Scalar sigma)%nd ;;
      let I_dir := Array (map col0 direction_vector) in
      let m_dir := Array (map col1 direction_vector) in
      let s_dir := Array (map col2 direction_vector) in
      partial_I <-
        call4 gaussian_partial_I
              (Array x) (I + I_dir) (mu + m_dir) (sigma + s_dir) ;;
      partial_mu <-
        call4 gaussian_partial_mu
              (Array x) (I + I_dir) (mu + m_dir) (sigma + s_dir) ;;
      partial_sigma <-
        call4 gaussian_partial_sigma
              (Array x) (I + I_dir) (mu + m_dir) (sigma + s_dir) ;;
      concatenate_columns partial_I partial_mu partial_sigma
  end.

Definition hessian_product (x : list float64) (I mu sigma : float64)
    (direction_vector : block) (epsilon : float64) : result block :=
  fx_ed <- gaussian_gradient x I mu sigma
             (Some (map (row_map (fmul epsilon)) direction_vector)) ;;
  fx <- gaussian_gradient x I mu sigma None ;;
  d <- broadcast2 (row_map2 fsub) fx_ed fx ;;
  Ok (map (row_map (fun v => v / epsilon)) d).

(* ================================================================== *)
(** ** Helper cells of the conjugate-gradient method *)

(** [a[i]]: an index past the end raises. *)
Definition getitem {A : Type} (l : list A) (i : nat) : result A :=
  match nth_error l i with
  | Some a => Ok a
  | None => Raise IndexError
  end.

(** [a[i] = v] on an array that is long enough. *)
Fixpoint setitem (l : list float64) (i : nat) (v : float64) : list float64 :=
  match l, i with
  | [], _ => []
  | _ :: t, O => v :: t
  | h :: t, S j => h :: setitem t j v
  end.

(** The [for i in range(length)] loop of [pointwise_dotproduct]. *)
Fixpoint pointwise_loop (vector hessian_times_direction : block)
    (indices : list nat) (out_arr : list float64) : result (list float64) :=
  match indices with
  | [] => Ok out_arr
  | i :: rest =>
      v <- getitem vector i ;;
      h <- getitem hessian_times_direction i ;;
      let k := dot3 v h in
      pointwise_loop vector hessian_times_direction rest (setitem out_arr i k)
  end.

Definition pointwise_dotproduct (vector hessian_times_direction : block)
  : result (list float64) :=
  let length := length vector in
  let out_arr := repeat (Fin 0) length in
  pointwise_loop vector hessian_times_direction (seq 0 length) out_arr.

(** [np.dot] of an (N, 3) block with a one-dimensional array: the array must
    have three entries. *)
Definition dot_block_vector (m : block) (p : list float64)
  : result (list float64) :=
  match p with
  | [a; b; c] => Ok (map (fun r => dot3 r (Row a b c)) m)
  | _ => Raise ValueError
  end.

(** [np.dot] of a one-dimensional array with an (N, 3) block: the array must
    have N entries; the result has three. *)
Definition dot_vector_block (a : list float64) (m : block)
  : result (list float64) :=
  if length a =? length m
  then
    let s := fold_left
               (fun acc p => row_map2 fadd acc (row_map (fmul (fst p)) (snd p)))
               (combine a m) (Row (Fin 0) (Fin 0) (Fin 0)) in
    Ok [col0 s; col1 s; col2 s]
  else Raise ValueError.

Definition get_alpha (params : list float64) (grad_in hess_in dir_vec : block)
  : result (list float64) :=
  term1 <- dot_block_vector hess_in params ;;
  term2 <- pointwise_dotproduct dir_vec grad_in ;;
  s <- broadcast2 fadd term1 term2 ;;
  let numerator := map (fmul (Fin (-1))) s in
  d <- pointwise_dotproduct dir_vec hess_in ;;
  let denominator := map (fun v => v + Fin 1e-11) d in
  broadcast2 f64.divide numerator denominator.

Definition get_beta (grad_in hess_in dir_vec : block) : result (list float64) :=
  numerator <- pointwise_dotproduct grad_in hess_in ;;
  denominator <- pointwise_dotproduct dir_vec hess_in ;;
  broadcast2 f64.divide numerator denominator.

(* ================================================================== *)
(** ** Main algorithm *)

(** [range(0, n, 3)]. *)
Definition range3 (n : nat) : list nat :=
  map (fun k => 3 * k)%nat (seq 0 ((n + 2) / 3)).

(** [out += b] in place: [b] must broadcast to the shape of [out]. *)
Definition iadd (out : list float64) (b : ndarray) : result (list float64) :=
  match b with
  | Scalar v => Ok (map (fun o => o + v) out)
  | Array [v] => Ok (map (fun o => o + v) out)
  | Array l =>
      if length l =? length out then Ok (map2 fadd out l)
      else Raise ValueError
  end.

(** The loop of [multiple_gaussians]: the three subscripts are evaluated
    before the call. *)
Fixpoint multiple_gaussians_loop (x params : list float64)
    (indices : list nat) (output_result : list float64)
  : result (list float64) :=
  match indices with
  | [] => Ok output_result
  | i :: rest =>
      p0 <- getitem params i ;;
      p1 <- getitem params (i + 1) ;;
      p2 <- getitem params (i + 2) ;;
      g <- gaussian (Array x) (Scalar p0) (Scalar p1) (Scalar p2) ;;
      output_result <- iadd output_result g ;;
      multiple_gaussians_loop x params rest output_result
  end.

Definition multiple_gaussians (x params : list float64)
  : result (list float64) :=
  let output_result := zeros_like x in
  multiple_gaussians_loop x params (range3 (length params)) output_result.

(** [gaussian_gradient(x, *args)] with the entries of a float array as the
    positional arguments: three bind [I], [mu], [sigma]; a fourth binds
    [direction_vector] to a scalar, whose [[:, 0]] subscript raises; any
    other count does not match the signature. *)
Definition gaussian_gradient_star (x : list float64) (args : list float64)
  : result block :=
  match args with
  | [I0; mu; sigma] => gaussian_gradient x I0 mu sigma None
  | [_; _; _; _] => Raise IndexError
  | _ => Raise TypeError
  end.

(** [*triplet] where [triplet] is an [int] drawn from [range]: an [int] is
    not iterable. *)
Definition star_of_int (triplet : nat) : result (list float64) :=
  Raise TypeError.

Fixpoint list_dirvecs_loop (x : list float64) (indices : list nat)
    (output_list : list block) : result (list block) :=
  match indices with
  | [] => Ok output_list
  | triplet :: rest =>
      args <- star_of_int triplet ;;
      g <- gaussian_gradient_star x args ;;
      list_dirvecs_loop x rest (output_list ++ [g])
  end.

Definition list_dirvecs (x start_params : list float64) : result (list block) :=
  list_dirvecs_loop x (range3 (length start_params)) [].

(** [hessian_product(x, *attempt, grad_vec, epsilon=1e-5)]. *)
Definition hessian_product_star (x attempt : list float64)
    (direction_vector : block) (epsilon : float64) : result block :=
  match attempt with
  | [I0; mu; sigma] => hessian_product x I0 mu sigma direction_vector epsilon
  | _ => Raise TypeError
  end.

(** [get_beta(x, grad_vec, hess_vec, dir_vec)]: four positional arguments for
    a function of three parameters. *)
Definition get_beta_star (x : list float64) (grad_vec hess_vec dir_vec : block)
  : result (list float64) :=
  Raise TypeError.

(** [-grad_vec + np.multiply(beta[:,None], dir_vec)], the last assignment of
    [single_iter]. *)
Definition direction_update (grad_vec : block) (beta : list float64)
    (dir_vec : block) : result block :=
  scaled <- broadcast2 (fun b r => row_map (fmul b) r) beta dir_vec ;;
  broadcast2 (row_map2 fadd) (map (row_map fneg) grad_vec) scaled.

Definition single_iter (x attempt : list float64) (dir_vec : block)
  : result (list float64 * block * list float64 * list float64) :=
  grad_vec <- gaussian_gradient_star x attempt ;;
  hess_vec <- hessian_product_star x attempt grad_vec (Fin 1e-5) ;;
  alpha <- get_alpha attempt grad_vec hess_vec dir_vec ;;
  (* new parameters *)
  step <- dot_vector_block alpha dir_vec ;;
  attempt <- broadcast2 fadd attempt step ;;
  (* update the direction *)
  beta <- get_beta_star x grad_vec hess_vec dir_vec ;;
  new_dir_vec <- direction_update grad_vec beta dir_vec ;;
  Ok (attempt, new_dir_vec, alpha, beta).

(** The state of [conjugate_gradient] when its [while] loop is reached. *)
Record cg_state : Type := CgState {
  switch : bool;
  attempts : list (list float64);
  prev_dirvecs : list block;
  loop_num : nat
}.

(** [attempts.append(start_params[i:i+3])]: a slice never raises. *)
Definition slices3 (start_params : list float64) : list (list float64) :=
  map (fun i => firstn 3 (skipn i start_params))
      (range3 (length start_params)).

(** The [for attempt, dir_vec in zip(...)] loop: the value of [single_iter]
    is dropped. *)
Fixpoint for_zip (x : list float64)
    (pairs : list (list float64 * block)) : result unit :=
  match pairs with
  | [] => Ok tt
  | (attempt, dir_vec) :: rest =>
      _ <- single_iter x attempt dir_vec ;;
      for_zip x rest
  end.

(** One pass of the body of [while switch]: nothing assigns [switch],
    [attempts], [prev_dirvecs] or [loop_num]. *)
Definition while_body (x : list float64) (st : cg_state) : result cg_state :=
  _ <- for_zip x (combine (attempts st) (prev_dirvecs st)) ;;
  Ok st.

(** [while switch: ...], run for at most [fuel] passes; [None] means the loop
    is still running when the fuel is spent. *)
Fixpoint while_switch (fuel : nat) (x : list float64) (st : cg_state)
  : option (result cg_state) :=
  if switch st then
    match fuel with
    | O => None
    | S fuel' =>
        match while_body x st with
        | Ok st' => while_switch fuel' x st'
        | Raise e => Some (Raise e)
        end
    end
  else Some (Ok st).

Definition conjugate_gradient (fuel : nat) (x y start_params : list float64)
  : option (result cg_state) :=
  let attempts := slices3 start_params in
  match list_dirvecs x start_params with
  | Raise e => Some (Raise e)
  | Ok prev_dirvecs =>
      while_switch fuel x (CgState true attempts prev_dirvecs 0)
  end.

(* ================================================================== *)
(** ** The cells at one sample *)

(** The computation of each cell on the floats of one sample.  The cells
    are shown below to compute exactly this at every index of their
    arguments. *)

Definition gaussian_at (x I mu sigma : float64) : float64 :=
  let diff := x - mu in
  let dist := diff ** 2 in
  let exponential :=
    f64.exp (f64.divide (- dist) (Fin 2 * sigma ** 2 + Fin 1e-11)) in
  let amplitude :=
    f64.divide (f64.abs I) (f64.sqrt (Fin 2 * Fin PI) * sigma + Fin 1e-11) in
  amplitude * exponential.

Definition gaussian_partial_I_at (x I mu sigma : float64) : float64 :=
  let diff := x - mu in
  let dist := diff ** 2 in
  let exponential :=
    f64.exp (f64.divide (- dist) (Fin 2 * sigma ** 2 + Fin 1e-11)) in
  let amplitude :=
    f64.divide (f64.sign I) (f64.sqrt (Fin 2 * Fin PI) * sigma + Fin 1e-11) in
  amplitude * exponential.

Definition gaussian_partial_mu_at (x I mu sigma : float64) : float64 :=
  let diff := x - mu in
  let dist := diff ** 2 in
  let exponential :=
    f64.exp (f64.divide (- dist) (Fin 2 * sigma ** 2 + Fin 1e-11)) in
  let amplitude :=
    I * (x - mu) / (f64.sqrt (Fin 2 * Fin PI) * sigma ** 3) in
  amplitude * exponential.

Definition gaussian_partial_sigma_at (x I mu sigma : float64) : float64 :=
  let diff := x - mu in
  let dist := diff ** 2 in
  let exponential :=
    f64.exp (f64.divide (- dist) (Fin 2 * sigma ** 2 + Fin 1e-11)) in
  let amplitude :=
    f64.divide (I * ((x - mu) ** 2 / sigma ** 2 - Fin 1))
              (f64.sqrt (Fin 2 * Fin PI) * sigma ** 2 + Fin 1e-11) in
  amplitude * exponential.

(** The draft cell at one sample. *)
Definition gaussian_draft_at (x I mu sigma : float64) : float64 :=
  let diff := x - mu in
  let dist := diff ** 2 in
  let exponential := f64.exp (- dist / (Fin 2 * sigma ** 2 + Fin 1e-11)) in
  let amplitude := f64.abs I / (f64.sqrt (Fin 2 * Fin PI) * sigma) in
  amplitude * exponential.

(* ================================================================== *)
(** ** The statements of the specification, in the same arithmetic *)

(** The regulariser of the Gaussian cells and of [get_alpha]. *)
Definition eps : R := 1e-11.

(** [evaluate] as the specification writes it:
    y = (|I| / (sqrt(2 pi) sigma + eps)) exp(-(x - mu)^2 / (2 sigma^2 + eps)). *)
Definition evaluate_spec (x I mu sigma : float64) : float64 :=
  (f64.abs I / (f64.sqrt (Fin 2 * Fin PI) * sigma + Fin eps))
  * f64.exp (- ((x - mu) ** 2) / (Fin 2 * sigma ** 2 + Fin eps)).

(** The same formula over the reals. *)
Definition evaluate_real (x I mu sigma : R) : R :=
  (Rabs I / (sqrt (2 * PI) * sigma + eps)
   * Rtrigo_def.exp (- ((x - mu) * (x - mu)) / (2 * (sigma * sigma) + eps)))%R.

(** The three partials at one sample, as one row of the gradient block. *)
Definition gradient_row (x I mu sigma : float64) : row :=
  Row (gaussian_partial_I_at x I mu sigma)
      (gaussian_partial_mu_at x I mu sigma)
      (gaussian_partial_sigma_at x I mu sigma).

(** The step size at one sample row, as the specification writes it. *)
Definition alpha_spec (params g h d : row) : float64 :=
  - (dot3 h params + dot3 d g) / (dot3 d h + Fin eps).

(** The conjugate coefficient at one sample row. *)
Definition beta_spec (g h d : row) : float64 :=
  dot3 g h / dot3 d h.

Definition finite_row (a b c : R) : row := Row (Fin a) (Fin b) (Fin c).

Definition zero_row : row := finite_row 0 0 0.

(** Row-wise inner product over the reals. *)
Definition dot3R (r s : R * R * R) : R :=
  (fst (fst r) * fst (fst s) + snd (fst r) * snd (fst s) + snd r * snd s)%R.

Definition row_of (r : R * R * R) : row :=
  finite_row (fst (fst r)) (snd (fst r)) (snd r).

(* ================================================================== *)
(** ** Peaks, and the trial cell *)

(** The parameter array of a list of peaks: amplitude, centre and width of
    each peak, in order. *)
Definition params_of_peaks (peaks : list (float64 * float64 * float64))
  : list float64 :=
  flat_map (fun p => [fst (fst p); snd (fst p); snd p]) peaks.

(** The curve of one peak at the samples, added to an accumulated curve. *)
Definition add_peak (x : list float64) (acc : list float64)
    (p : float64 * float64 * float64) : list float64 :=
  map2 fadd acc
       (map (fun xj => gaussian_at xj (fst (fst p)) (snd (fst p)) (snd p)) x).

Definition sum_of_peaks (x : list float64)
    (peaks : list (float64 * float64 * float64)) : list float64 :=
  fold_left (add_peak x) peaks (zeros_like x).

(** The loop of the trial cell that fills [gradient_tmp]: every pass
    subscripts [start_vals] with 0, 1 and 2, not with the loop index. *)
Fixpoint gradient_tmp_loop (x start_vals : list float64) (indices : list nat)
    (gradient_tmp : list block) : result (list block) :=
  match indices with
  | [] => Ok gradient_tmp
  | i :: rest =>
      p0 <- getitem start_vals 0 ;;
      p1 <- getitem start_vals 1 ;;
      p2 <- getitem start_vals 2 ;;
      g <- gaussian_gradient x p0 p1 p2 None ;;
      gradient_tmp_loop x start_vals rest (gradient_tmp ++ [g])
  end.

(** The trial cell: [result_tmp = multiple_gaussians(x, start_vals)], then
    the loop. *)
Definition gradient_tmp_cell (x start_vals : list float64)
  : result (list block) :=
  result_tmp <- multiple_gaussians x start_vals ;;
  gradient_tmp_loop x start_vals (range3 (length start_vals)) [].

(* ================================================================== *)
(** ** The cells in binary64 arithmetic *)

(** The Gaussian cells, the gradient block and the Hessian-vector product
    once more, on IEEE 754 binary64 numbers: Rocq's primitive floats, whose
    [+], [-], [*], [/] and square root round to nearest (ties to even),
    overflow to an infinity and underflow to a subnormal number or to zero,
    as NumPy's do on [float64].  Zero is signed.  The statements that depend
    on how a result is rounded, or on whether it overflows, are made about
    these definitions.  Scalar parameters are NumPy [float64] scalars, as
    the entries of the notebook's parameter arrays are. *)

(** A decimal literal stands for the nearest double, as in Python. *)
Set Warnings "-inexact-float,-notation-overridden".

Module b64.

Import PrimFloat.

(** What the cells take from the C library and from NumPy's loops, of which
    the notebook holds no source: [np.exp] on one number; the power of a
    [float64] scalar by a Python [int] ([sigma**2] and [sigma**3] on scalar
    parameters, the C function [pow]); and the loop of [np.power] on one
    element ([sigma**3] on an array).  The square of an array is not among
    them: NumPy computes [a**2] as [a * a]. *)
Record libm : Type := Libm {
  exp : float -> float;
  pow : float -> Z -> float;
  power : float -> Z -> float
}.

(** The sign bit of a number, read off its binary64 representation; [nan]
    has none here. *)
Definition SFsign (v : SpecFloat.spec_float) : bool :=
  match v with
  | SpecFloat.S754_zero s
  | SpecFloat.S754_infinity s
  | SpecFloat.S754_finite s _ _ => s
  | SpecFloat.S754_nan => false
  end.

Definition signbit (v : float) : bool := SFsign (FloatOps.Prim2SF v).

(** What every such library gives: the values the C standard fixes for the
    exponential at [nan], at both zeros and at [-inf] and for a power of 1
    and of zero, and that neither an exponential nor a square is negative. *)
Record lawful (L : libm) : Prop := Lawful {
  exp_nan : exp L nan = nan;
  exp_zero : exp L 0 = 1;
  exp_neg_zero : exp L neg_zero = 1;
  exp_neg_infinity : exp L neg_infinity = 0;
  exp_signbit : forall x, signbit (exp L x) = false;
  pow_one : forall n, pow L 1 n = 1;
  pow_zero : forall n, (0 < n)%Z -> pow L 0 n = 0;
  pow_square_signbit : forall x, signbit (pow L x 2) = false;
  power_one : forall n, power L 1 n = 1;
  power_zero : forall n, (0 < n)%Z -> power L 0 n = 0
}.

(** One such library.  Its exponential is computed on integers: the
    argument is split as k ln 2 + r with |r| <= ln 2 / 2, the series of
    exp r is summed in units of 2^-256 and the sum, times 2^k, is rounded to
    the nearest double (to zero or to [inf] beyond the range; the absolute
    value changes nothing, the sum being positive, and makes the absence of
    a sign bit evident).  Its powers are repeated products. *)
Definition ln2_fixed : Z :=
  80260960185991308862233904206310070533990667611589946606122867505419956976171.

(** [acc] plus the [n] terms that follow [term] in the series of exp r, in
    units of 2^-256; the next term has index [i]. *)
Fixpoint exp_series (n : nat) (r term i acc : Z) : Z :=
  match n with
  | O => acc
  | S n' =>
      let term' := (Z.shiftr (term * r) 256 / i)%Z in
      exp_series n' r term' (i + 1)%Z (acc + term')%Z
  end.

Definition SFexp (v : SpecFloat.spec_float) : SpecFloat.spec_float :=
  match v with
  | SpecFloat.S754_nan => SpecFloat.S754_nan
  | SpecFloat.S754_zero _ => SpecFloat.S754_finite false 4503599627370496 (-52)
  | SpecFloat.S754_infinity false => SpecFloat.S754_infinity false
  | SpecFloat.S754_infinity true => SpecFloat.S754_zero false
  | SpecFloat.S754_finite s m e =>
      if (10 <? Z.pos (SpecFloat.digits2_pos m) + e)%Z
      then if s then SpecFloat.S754_zero false
           else SpecFloat.S754_infinity false
      else
        let x := Z.shiftl (if s then Z.neg m else Z.pos m) (e + 256) in
        let k := ((2 * x + ln2_fixed) / (2 * ln2_fixed))%Z in
        let r := (x - k * ln2_fixed)%Z in
        let one := Z.shiftl 1 256 in
        let t := exp_series 60 r one 1 one in
        SpecFloat.binary_normalize FloatOps.prec FloatOps.emax t (k - 256)
          false
  end.

Definition exp_reference (x : float) : float :=
  abs (FloatOps.SF2Prim (SFexp (FloatOps.Prim2SF x))).

Definition pow_reference (x : float) (n : Z) : float :=
  match n with
  | Z0 => 1
  | Zpos p => Pos.iter_op mul p x
  | Zneg p => 1 / Pos.iter_op mul p x
  end.

Definition reference : libm := Libm exp_reference pow_reference pow_reference.

(** [np.sign] on one number. *)
Definition sign (v : float) : float :=
  if 0 <? v then 1
  else if v <? 0 then -1
  else if v =? 0 then 0
  else v.

(** A NumPy [float64] scalar or a one-dimensional array. *)
Inductive ndarray : Type :=
| Scalar (v : float)
| Array (l : list float).

Definition items (a : ndarray) : list float :=
  match a with
  | Scalar v => [v]
  | Array l => l
  end.

Definition is_scalar (a : ndarray) : bool :=
  match a with
  | Scalar _ => true
  | Array _ => false
  end.

Definition nd_binop (f : float -> float -> float) (a b : ndarray)
  : result ndarray :=
  ys <- broadcast2 f (items a) (items b) ;;
  Ok (if is_scalar a && is_scalar b then Scalar (hd nan ys) else Array ys).

Definition nd_map (f : float -> float) (a : ndarray) : ndarray :=
  match a with
  | Scalar v => Scalar (f v)
  | Array l => Array (map f l)
  end.

(** [a ** n] for a Python [int] [n]: [pow] on a scalar; on an array the
    product [a * a] when [n] is 2 and the loop of [np.power] otherwise. *)
Definition nd_pow (L : libm) (n : Z) (a : ndarray) : ndarray :=
  match a with
  | Scalar v => Scalar (pow L v n)
  | Array l =>
      Array (map (fun v => if (n =? 2)%Z then v * v else power L v n) l)
  end.

Definition rnd : Type := result ndarray.

Definition ret_nd (a : ndarray) : rnd := Ok a.

Coercion ret_nd : ndarray >-> rnd.

Definition ufunc1 (f : float -> float) (a : rnd) : rnd :=
  a' <- a ;; Ok (nd_map f a').

Definition ufunc2 (f : float -> float -> float) (a b : rnd) : rnd :=
  a' <- a ;; b' <- b ;; nd_binop f a' b'.

Definition power_expr (L : libm) (n : Z) (a : rnd) : rnd :=
  a' <- a ;; Ok (nd_pow L n a').

Definition lit (v : float) : rnd := Ok (Scalar v).

Definition call4 (f : ndarray -> ndarray -> ndarray -> ndarray -> rnd)
    (a b c d : rnd) : rnd :=
  a' <- a ;; b' <- b ;; c' <- c ;; d' <- d ;; f a' b' c' d'.

Declare Scope ndf_scope.
Delimit Scope ndf_scope with ndf.
Bind Scope ndf_scope with rnd.
Infix "+" := (ufunc2 add) : ndf_scope.
Infix "-" := (ufunc2 sub) : ndf_scope.
Infix "*" := (ufunc2 mul) : ndf_scope.
Infix "/" := (ufunc2 div) : ndf_scope.
Notation "- x" := (ufunc1 opp x) : ndf_scope.

Module np.

(** The double nearest to pi. *)
Definition pi : rnd := lit 0x1.921fb54442d18p+1.

Definition sqrt : rnd -> rnd := ufunc1 PrimFloat.sqrt.

Definition exp (L : libm) : rnd -> rnd := ufunc1 (b64.exp L).

Definition abs : rnd -> rnd := ufunc1 PrimFloat.abs.

Definition sign : rnd -> rnd := ufunc1 b64.sign.

Definition divide : rnd -> rnd -> rnd := ufunc2 div.

Definition transpose (a : rnd) : rnd := a.

End np.

Definition ones_like (x : list float) : list float :=
  map (fun _ => 1) x.

Record row : Type := Row { col0 : float; col1 : float; col2 : float }.

Definition block : Type := list row.

Definition row_map (f : float -> float) (r : row) : row :=
  Row (f (col0 r)) (f (col1 r)) (f (col2 r)).

Definition row_map2 (f : float -> float -> float) (r s : row) : row :=
  Row (f (col0 r) (col0 s)) (f (col1 r) (col1 s)) (f (col2 r) (col2 s)).

Definition concatenate_columns (a b c : ndarray) : result block :=
  match a, b, c with
  | Array la, Array lb, Array lc =>
      if (length la =? length lb)%nat && (length lb =? length lc)%nat
      then Ok (map2 (fun p z => Row (fst p) (snd p) z) (combine la lb) lc)
      else Raise ValueError
  | _, _, _ => Raise IndexError
  end.

(** [a[i] = v] on an array that is long enough. *)
Fixpoint setitem (l : list float) (i : nat) (v : float) : list float :=
  match l, i with
  | [], _ => []
  | _ :: t, O => v :: t
  | h :: t, S j => h :: setitem t j v
  end.

Section helper_cells.

(** [np.dot] of two rows of three numbers.  The BLAS routine behind it
    fixes neither the order of its sums nor whether a product is fused with
    a sum, so it is a parameter here. *)
Variable dot : row -> row -> float.

Fixpoint pointwise_loop (vector hessian_times_direction : block)
    (indices : list nat) (out_arr : list float) : result (list float) :=
  match indices with
  | [] => Ok out_arr
  | i :: rest =>
      v <- getitem vector i ;;
      h <- getitem hessian_times_direction i ;;
      let k := dot v h in
      pointwise_loop vector hessian_times_direction rest (setitem out_arr i k)
  end.

Definition pointwise_dotproduct (vector hessian_times_direction : block)
  : result (list float) :=
  let length := length vector in
  let out_arr := repeat 0 length in
  pointwise_loop vector hessian_times_direction (seq 0 length) out_arr.

Definition get_beta (grad_in hess_in dir_vec : block) : result (list float) :=
  numerator <- pointwise_dotproduct grad_in hess_in ;;
  denominator <- pointwise_dotproduct dir_vec hess_in ;;
  broadcast2 div numerator denominator.

End helper_cells.

(** The inner product of two rows summed from the left, one way of computing
    [np.dot]. *)
Definition dot3 (r s : row) : float :=
  col0 r * col0 s + col1 r * col1 s + col2 r * col2 s.

Section cells.

Variable L : libm.

Notation "x ** n" := (power_expr L n x)
  (at level 30, right associativity) : ndf_scope.

Definition gaussian (x I mu sigma : ndarray) : rnd :=
  (diff <- x - mu ;;
   dist <- diff ** 2 ;;
   exponential <-
     np.exp L (np.divide (- dist) (lit 2 * sigma ** 2 + lit 1e-11)) ;;
   amplitude <-
     np.divide (np.abs I) (np.sqrt (lit 2 * np.pi) * sigma + lit 1e-11) ;;
   amplitude * exponential)%ndf.

Definition gaussian_partial_I (x I mu sigma : ndarray) : rnd :=
  (diff <- x - mu ;;
   dist <- diff ** 2 ;;
   exponential <-
     np.exp L (np.divide (- dist) (lit 2 * sigma ** 2 + lit 1e-11)) ;;
   amplitude <-
     np.divide (np.sign I) (np.sqrt (lit 2 * np.pi) * sigma + lit 1e-11) ;;
   np.transpose (amplitude * exponential))%ndf.

Definition gaussian_partial_mu (x I mu sigma : ndarray) : rnd :=
  (diff <- x - mu ;;
   dist <- diff ** 2 ;;
   exponential <-
     np.exp L (np.divide (- dist) (lit 2 * sigma ** 2 + lit 1e-11)) ;;
   amplitude <- I * (x - mu) / (np.sqrt (lit 2 * np.pi) * sigma ** 3) ;;
   np.transpose (amplitude * exponential))%ndf.

Definition gaussian_partial_sigma (x I mu sigma : ndarray) : rnd :=
  (diff <- x - mu ;;
   dist <- diff ** 2 ;;
   exponential <-
     np.exp L (np.divide (- dist) (lit 2 * sigma ** 2 + lit 1e-11)) ;;
   amplitude <-
     np.divide (I * ((x - mu) ** 2 / sigma ** 2 - lit 1))
               (np.sqrt (lit 2 * np.pi) * sigma ** 2 + lit 1e-11) ;;
   np.transpose (amplitude * exponential))%ndf.

Definition gaussian_gradient (x : list float) (I mu sigma : float)
    (direction_vector : option block) : result block :=
  match direction_vector with
  | None =>
      partial_I <-
        gaussian_partial_I (Array x) (Scalar I) (Scalar mu) (Scalar sigma) ;;
      partial_mu <-
        gaussian_partial_mu (Array x) (Scalar I) (Scalar mu) (Scalar sigma) ;;
      partial_sigma <-
        gaussian_partial_sigma (Array x) (Scalar I) (Scalar mu) (Scalar sigma) ;;
      concatenate_columns partial_I partial_mu partial_sigma
  | Some direction_vector =>
      I <- (Array (ones_like x) * Scalar I)%ndf ;;
      mu <- (Array (ones_like x) * Scalar mu)%ndf ;;
      sigma <- (Array (ones_like x) * Scalar sigma)%ndf ;;
      let I_dir := Array (map col0 direction_vector) in
      let m_dir := Array (map col1 direction_vector) in
      let s_dir := Array (map col2 direction_vector) in
      partial_I <-
        call4 gaussian_partial_I
              (Array x) (I + I_dir)%ndf (mu + m_dir)%ndf (sigma + s_dir)%ndf ;;
      partial_mu <-
        call4 gaussian_partial_mu
              (Array x) (I + I_dir)%ndf (mu + m_dir)%ndf (sigma + s_dir)%ndf ;;
      partial_sigma <-
        call4 gaussian_partial_sigma
              (Array x) (I + I_dir)%ndf (mu + m_dir)%ndf (sigma + s_dir)%ndf ;;
      concatenate_columns partial_I partial_mu partial_sigma
  end.

Definition hessian_product (x : list float) (I mu sigma : float)
    (direction_vector : block) (epsilon : float) : result block :=
  fx_ed <- gaussian_gradient x I mu sigma
             (Some (map (row_map (mul epsilon)) direction_vector)) ;;
  fx <- gaussian_gradient x I mu sigma None ;;
  d <- broadcast2 (row_map2 sub) fx_ed fx ;;
  Ok (map (row_map (fun v => v / epsilon)) d).

(** *** The cells at one sample *)

(** The exponential factor, the square of the width being [s2]. *)
Definition exponential_at (s2 x mu : float) : float :=
  exp L (- ((x - mu) * (x - mu)) / (2 * s2 + 1e-11)).

Definition gaussian_at (x I mu sigma : float) : float :=
  abs I / (sqrt (2 * 0x1.921fb54442d18p+1) * sigma + 1e-11)
  * exponential_at (pow L sigma 2) x mu.

(** The three partials at one sample; [s2] and [s3] are the square and the
    cube of the width as the call computes them. *)
Definition gradient_row_with (s2 s3 x I mu sigma : float) : row :=
  Row (sign I / (sqrt (2 * 0x1.921fb54442d18p+1) * sigma + 1e-11)
       * exponential_at s2 x mu)
      (I * (x - mu) / (sqrt (2 * 0x1.921fb54442d18p+1) * s3)
       * exponential_at s2 x mu)
      (I * ((x - mu) * (x - mu) / s2 - 1)
       / (sqrt (2 * 0x1.921fb54442d18p+1) * s2 + 1e-11)
       * exponential_at s2 x mu).

(** On scalar parameters the powers are the C library's. *)
Definition gradient_row (x I mu sigma : float) : row :=
  gradient_row_with (pow L sigma 2) (pow L sigma 3) x I mu sigma.

(** On parameter arrays the square is a product and the cube is
    [np.power]'s. *)
Definition gradient_row_arrays (x I mu sigma : float) : row :=
  gradient_row_with (sigma * sigma) (power L sigma 3) x I mu sigma.

End cells.

(** A row of three finite numbers. *)
Definition finite_row (r : row) : bool :=
  is_finite (col0 r) && is_finite (col1 r) && is_finite (col2 r).

Definition zero_row : row := Row 0 0 0.

End b64.

(* ================================================================== *)
(** ** Arithmetic of the idealised floats *)

Lemma eps_pos : (0 < eps)%R.
Proof. unfold eps. lra. Qed.

Lemma signed_inf_pos r : (0 < r)%R -> signed_inf r = PInf.
Proof.
  intros H. unfold signed_inf.
  destruct (total_order_T 0 r) as [[Hlt | Heq] | Hgt]; try reflexivity; lra.
Qed.

Lemma signed_inf_neg r : (r < 0)%R -> signed_inf r = NInf.
Proof.
  intros H. unfold signed_inf.
  destruct (total_order_T 0 r) as [[Hlt | Heq] | Hgt]; try reflexivity; lra.
Qed.

Lemma signed_inf_zero : signed_inf 0 = NaN.
Proof.
  unfold signed_inf.
  destruct (total_order_T 0 0) as [[Hlt | Heq] | Hgt]; try reflexivity; lra.
Qed.

Lemma signed_inf_not_finite r : ~ is_finite (signed_inf r).
Proof.
  unfold signed_inf.
  destruct (total_order_T 0 r) as [[Hlt | Heq] | Hgt]; simpl; tauto.
Qed.

Lemma fdiv_fin x y : y <> 0%R -> Fin x / Fin y = Fin (x / y).
Proof.
  intros H. unfold fdiv.
  destruct (Req_dec_T y 0) as [Heq | Hne]; [contradiction | reflexivity].
Qed.

Lemma fdiv_by_zero x : Fin x / Fin 0 = signed_inf x.
Proof.
  unfold fdiv.
  destruct (Req_dec_T 0 0) as [Heq | Hne]; [reflexivity | contradiction].
Qed.

Lemma fmul_1_l v : Fin 1 * v = v.
Proof.
  destruct v as [y | | | ]; simpl.
  - f_equal. lra.
  - apply signed_inf_pos. lra.
  - apply signed_inf_neg. lra.
  - reflexivity.
Qed.

Lemma fmul_m1_l v : Fin (-1) * v = - v.
Proof.
  destruct v as [y | | | ]; simpl.
  - f_equal. lra.
  - apply signed_inf_neg. lra.
  - apply signed_inf_pos. lra.
  - reflexivity.
Qed.

Lemma sqrt_2pi_pos : (0 < sqrt (2 * PI))%R.
Proof. apply sqrt_lt_R0. pose proof PI_RGT_0. lra. Qed.

Lemma np_sqrt_2pi : f64.sqrt (Fin 2 * Fin PI) = Fin (sqrt (2 * PI)).
Proof.
  simpl.
  destruct (Rlt_dec (2 * PI) 0) as [Hlt | Hge]; [ | reflexivity].
  pose proof PI_RGT_0. lra.
Qed.

Lemma exponent_denominator_pos sigma : (0 < 2 * (sigma * sigma) + eps)%R.
Proof. pose proof eps_pos. nra. Qed.

(** The shared exponential factor of the four cells, on finite arguments. *)
Lemma exponential_finite (x mu sigma : R) :
  f64.exp (f64.divide (- (Fin x - Fin mu) ** 2) (Fin 2 * Fin sigma ** 2 + Fin 1e-11))
  = Fin (Rtrigo_def.exp
           (- ((x - mu) * (x - mu)) / (2 * (sigma * sigma) + eps))).
Proof.
  unfold f64.divide. cbn [fpow fsub fneg fadd fmul].
  rewrite fdiv_fin.
  - cbn [f64.exp]. do 2 f_equal. unfold eps. f_equal; f_equal; ring.
  - pose proof (exponent_denominator_pos sigma). unfold eps in *. lra.
Qed.

(* ================================================================== *)
(** ** Broadcasting *)

Lemma broadcast2_same_length {A B C : Type} (f : A -> B -> C) a b :
  length a = length b -> broadcast2 f a b = Ok (map2 f a b).
Proof.
  intros H. unfold broadcast2. rewrite H, Nat.eqb_refl. reflexivity.
Qed.

Lemma broadcast2_one_r {A B C : Type} (f : A -> B -> C) a y :
  broadcast2 f a [y] = Ok (map (fun x => f x y) a).
Proof.
  unfold broadcast2, map2.
  destruct a as [ | x0 [ | x1 a]]; reflexivity.
Qed.

Lemma length_map2 {A B C : Type} (f : A -> B -> C) a b :
  length a = length b -> length (map2 f a b) = length a.
Proof.
  intros H. unfold map2. rewrite length_map, length_combine, H.
  apply Nat.min_id.
Qed.

Lemma map2_cons {A B C : Type} (f : A -> B -> C) x a y b :
  map2 f (x :: a) (y :: b) = f x y :: map2 f a b.
Proof. reflexivity. Qed.

Lemma map2_map_l {A A' B C : Type} (g : A -> A') (f : A' -> B -> C) a b :
  map2 f (map g a) b = map2 (fun x y => f (g x) y) a b.
Proof.
  revert b. induction a as [ | x a IH]; intros [ | y b]; try reflexivity.
  simpl map. rewrite !map2_cons, IH. reflexivity.
Qed.

Lemma map2_map_r {A B B' C : Type} (g : B -> B') (f : A -> B' -> C) a b :
  map2 f a (map g b) = map2 (fun x y => f x (g y)) a b.
Proof.
  revert b. induction a as [ | x a IH]; intros [ | y b]; try reflexivity.
  simpl map. rewrite !map2_cons, IH. reflexivity.
Qed.

Lemma broadcast2_one_l {A B C : Type} (f : A -> B -> C) x b :
  broadcast2 f [x] b = Ok (map (f x) b).
Proof.
  unfold broadcast2, map2.
  destruct b as [ | y0 [ | y1 b]]; reflexivity.
Qed.

Lemma length_map2_min {A B C : Type} (f : A -> B -> C) a b :
  length (map2 f a b) = Nat.min (length a) (length b).
Proof. unfold map2. rewrite length_map. apply length_combine. Qed.

Lemma map_map2 {A B C D : Type} (g : C -> D) (f : A -> B -> C) a b :
  map g (map2 f a b) = map2 (fun x y => g (f x y)) a b.
Proof. unfold map2. rewrite map_map. reflexivity. Qed.

Lemma map2_diag {A B C D : Type} (h : B -> C -> D) (f : A -> B) (g : A -> C) l :
  map2 h (map f l) (map g l) = map (fun a => h (f a) (g a)) l.
Proof.
  induction l as [ | a l IH]; [reflexivity | ].
  cbn [map]. rewrite map2_cons, IH. reflexivity.
Qed.

Lemma nd_binop_scalars f a b :
  nd_binop f (Scalar a) (Scalar b) = Ok (Scalar (f a b)).
Proof. reflexivity. Qed.

Lemma nd_binop_array_scalar f x a :
  nd_binop f (Array x) (Scalar a) = Ok (Array (map (fun xj => f xj a) x)).
Proof.
  unfold nd_binop. simpl items. rewrite broadcast2_one_r. reflexivity.
Qed.

Lemma nd_binop_scalar_array f a x :
  nd_binop f (Scalar a) (Array x) = Ok (Array (map (f a) x)).
Proof.
  unfold nd_binop. simpl items. rewrite broadcast2_one_l. reflexivity.
Qed.

Lemma nd_binop_arrays f x y :
  length x = length y ->
  nd_binop f (Array x) (Array y) = Ok (Array (map2 f x y)).
Proof.
  intros H. unfold nd_binop. simpl items.
  rewrite broadcast2_same_length by assumption. reflexivity.
Qed.

Lemma concatenate_columns_arrays a b c :
  length b = length a -> length c = length a ->
  concatenate_columns (Array a) (Array b) (Array c)
  = Ok (map2 (fun p z => Row (fst p) (snd p) z) (combine a b) c).
Proof.
  intros Hb Hc. unfold concatenate_columns.
  rewrite Hb, Hc, !Nat.eqb_refl. reflexivity.
Qed.

(* ================================================================== *)
(** ** The cells compute sample by sample *)

(** Lengths of the intermediate arrays. *)
Ltac nd_length :=
  repeat (rewrite length_map || rewrite length_map2_min); lia.

(** One operator of an array expression, on operands of known shape. *)
Ltac nd_step :=
  first [ rewrite nd_binop_scalars
        | rewrite nd_binop_array_scalar
        | rewrite nd_binop_scalar_array
        | rewrite nd_binop_arrays by nd_length ].

Ltac nd_eval :=
  unfold np.exp, np.abs, np.sign, np.sqrt, np.divide, np.transpose, np.pi,
    ufunc1, ufunc2, lit, ret_nd;
  cbn [bind nd_map];
  repeat (nd_step; cbn [bind nd_map]).

(** Two arrays built sample by sample from four arrays of one length are
    equal when they agree at every sample. *)
Ltac pointwise4 x a b c :=
  unfold map2;
  generalize dependent c; generalize dependent b; generalize dependent a;
  induction x as [ | ? x IH];
  intros [ | ? ?] ? [ | ? ?] ? [ | ? ?] ?; cbn [length] in *;
  try discriminate; [reflexivity | ];
  cbn [map combine fst snd]; f_equal;
  apply IH; lia.

Lemma gaussian_array_scalars x I mu sigma :
  gaussian (Array x) (Scalar I) (Scalar mu) (Scalar sigma)
  = Ok (Array (map (fun xj => gaussian_at xj I mu sigma) x)).
Proof.
  unfold gaussian. nd_eval. rewrite !map_map. reflexivity.
Qed.

Lemma gaussian_draft_scalars x I mu sigma :
  gaussian_draft (Scalar x) (Scalar I) (Scalar mu) (Scalar sigma)
  = Ok (Scalar (gaussian_draft_at x I mu sigma)).
Proof. reflexivity. Qed.

Lemma gaussian_partial_I_array_scalars x I mu sigma :
  gaussian_partial_I (Array x) (Scalar I) (Scalar mu) (Scalar sigma)
  = Ok (Array (map (fun xj => gaussian_partial_I_at xj I mu sigma) x)).
Proof.
  unfold gaussian_partial_I. nd_eval. rewrite !map_map. reflexivity.
Qed.

Lemma gaussian_partial_mu_array_scalars x I mu sigma :
  gaussian_partial_mu (Array x) (Scalar I) (Scalar mu) (Scalar sigma)
  = Ok (Array (map (fun xj => gaussian_partial_mu_at xj I mu sigma) x)).
Proof.
  unfold gaussian_partial_mu. nd_eval. rewrite !map_map, map2_diag. reflexivity.
Qed.

Lemma gaussian_partial_sigma_array_scalars x I mu sigma :
  gaussian_partial_sigma (Array x) (Scalar I) (Scalar mu) (Scalar sigma)
  = Ok (Array (map (fun xj => gaussian_partial_sigma_at xj I mu sigma) x)).
Proof.
  unfold gaussian_partial_sigma. nd_eval. rewrite !map_map, map2_diag. reflexivity.
Qed.

Lemma gaussian_partial_I_arrays x a b c :
  length a = length x -> length b = length x -> length c = length x ->
  gaussian_partial_I (Array x) (Array a) (Array b) (Array c)
  = Ok (Array (map (fun q => gaussian_partial_I_at
                               (fst (fst (fst q))) (snd (fst (fst q)))
                               (snd (fst q)) (snd q))
                   (combine (combine (combine x a) b) c))).
Proof.
  intros Ha Hb Hc. unfold gaussian_partial_I. nd_eval.
  do 2 f_equal. rewrite !map_map.
  pointwise4 x a b c.
Qed.

Lemma gaussian_partial_mu_arrays x a b c :
  length a = length x -> length b = length x -> length c = length x ->
  gaussian_partial_mu (Array x) (Array a) (Array b) (Array c)
  = Ok (Array (map (fun q => gaussian_partial_mu_at
                               (fst (fst (fst q))) (snd (fst (fst q)))
                               (snd (fst q)) (snd q))
                   (combine (combine (combine x a) b) c))).
Proof.
  intros Ha Hb Hc. unfold gaussian_partial_mu. nd_eval.
  do 2 f_equal. rewrite !map_map.
  pointwise4 x a b c.
Qed.

Lemma gaussian_partial_sigma_arrays x a b c :
  length a = length x -> length b = length x -> length c = length x ->
  gaussian_partial_sigma (Array x) (Array a) (Array b) (Array c)
  = Ok (Array (map (fun q => gaussian_partial_sigma_at
                               (fst (fst (fst q))) (snd (fst (fst q)))
                               (snd (fst q)) (snd q))
                   (combine (combine (combine x a) b) c))).
Proof.
  intros Ha Hb Hc. unfold gaussian_partial_sigma. nd_eval.
  do 2 f_equal. rewrite !map_map.
  pointwise4 x a b c.
Qed.

(* ================================================================== *)
(** ** The Gaussian cell *)

Lemma gaussian_at_spec x I mu sigma :
  gaussian_at x I mu sigma = evaluate_spec x I mu sigma.
Proof. reflexivity. Qed.

(** On finite arguments with a non-zero amplitude denominator the formula is
    the real-valued one. *)
Lemma evaluate_spec_real (x I mu sigma : R) :
  (sqrt (2 * PI) * sigma + eps <> 0)%R ->
  evaluate_spec (Fin x) (Fin I) (Fin mu) (Fin sigma)
  = Fin (evaluate_real x I mu sigma).
Proof.
  intros Hd. unfold evaluate_spec, evaluate_real.
  pose proof (exponential_finite x mu sigma) as He.
  unfold f64.divide in He. unfold eps at 2. rewrite He.
  rewrite np_sqrt_2pi. cbn [f64.abs fmul fadd].
  rewrite fdiv_fin by assumption. reflexivity.
Qed.

(** The amplitude denominator is positive for a positive width. *)
Lemma amplitude_denominator_pos sigma :
  (0 < sigma)%R -> (0 < sqrt (2 * PI) * sigma + eps)%R.
Proof.
  intros H. pose proof sqrt_2pi_pos. pose proof eps_pos. nra.
Qed.

(** C1.  For every sample array [x] and all parameters [I], [mu], [sigma],
    the cell [gaussian] returns at every sample position
    (|I| / (sqrt(2 pi) sigma + eps)) * exp(-(x_j - mu)^2 / (2 sigma^2 + eps)),
    the regulariser eps = 1e-11 being added to both denominators. *)
Theorem gaussian_returns_formula (x : list float64) (I mu sigma : float64) :
  eps = 1e-11%R /\
  gaussian (Array x) (Scalar I) (Scalar mu) (Scalar sigma)
  = Ok (Array (map (fun xj => evaluate_spec xj I mu sigma) x)) /\
  (forall xr Ir mur : R,
     evaluate_spec (Fin xr) (Fin Ir) (Fin mur) (Fin 0)
     = Fin (evaluate_real xr Ir mur 0)).
Proof.
  split; [reflexivity | split].
  - apply gaussian_array_scalars.
  - intros xr Ir mur. apply evaluate_spec_real.
    pose proof eps_pos. lra.
Qed.

(** X25.  The draft of the cell in the notebook's first version leaves the
    amplitude denominator bare: at sigma = 0 it is not finite, where the
    final cell is. *)
Lemma gaussian_draft_not_finite_at_zero_width (x I mu : R) :
  exists v,
    gaussian_draft (Scalar (Fin x)) (Scalar (Fin I)) (Scalar (Fin mu))
                   (Scalar (Fin 0)) = Ok (Scalar v)
    /\ ~ is_finite v.
Proof.
  eexists. split; [apply gaussian_draft_scalars | ].
  unfold gaussian_draft_at. rewrite np_sqrt_2pi.
  pose proof (exponential_finite x mu 0) as He.
  unfold f64.divide in He. rewrite He.
  replace (Fin (sqrt (2 * PI)) * Fin 0) with (Fin 0)
    by (simpl; f_equal; ring).
  simpl f64.abs. rewrite fdiv_by_zero.
  unfold signed_inf.
  destruct (total_order_T 0 (Rabs I)) as [[Hlt | Heq] | Hgt]; simpl.
  - pose proof (exp_pos (- ((x - mu) * (x - mu)) / (2 * (0 * 0) + eps))).
    rewrite signed_inf_pos by assumption. tauto.
  - tauto.
  - pose proof (exp_pos (- ((x - mu) * (x - mu)) / (2 * (0 * 0) + eps))).
    rewrite signed_inf_neg by lra. tauto.
Qed.

(* ================================================================== *)
(** ** The gradient block and the Hessian-vector product *)

Lemma length_ones_like x : length (ones_like x) = length x.
Proof. apply length_map. Qed.

(** Stacking three columns computed from the same zipped samples. *)
Lemma columns_of_rows {A : Type} (f g h : A -> float64) (l : list A) :
  map2 (fun p z => Row (fst p) (snd p) z)
       (combine (map f l) (map g l)) (map h l)
  = map (fun a => Row (f a) (g a) (h a)) l.
Proof.
  induction l as [ | a l IH]; [reflexivity | ].
  simpl map. simpl combine. rewrite map2_cons, IH. reflexivity.
Qed.

(** Without a direction: the three partials at the scalar parameters. *)
Lemma gaussian_gradient_base x I mu sigma :
  gaussian_gradient x I mu sigma None
  = Ok (map (fun xj => gradient_row xj I mu sigma) x).
Proof.
  unfold gaussian_gradient.
  rewrite gaussian_partial_I_array_scalars, gaussian_partial_mu_array_scalars,
    gaussian_partial_sigma_array_scalars.
  cbn [bind].
  rewrite concatenate_columns_arrays by (rewrite !length_map; reflexivity).
  rewrite columns_of_rows. reflexivity.
Qed.

(** The per-sample parameters of the perturbed call, zipped with the
    samples. *)
Lemma zip_perturbed x I mu sigma (d : block) :
  length d = length x ->
  combine
    (combine
       (combine x (map2 fadd (map (fun o => o * I) (ones_like x)) (map col0 d)))
       (map2 fadd (map (fun o => o * mu) (ones_like x)) (map col1 d)))
    (map2 fadd (map (fun o => o * sigma) (ones_like x)) (map col2 d))
  = map2 (fun xj dj =>
            (xj, I + col0 dj, mu + col1 dj, sigma + col2 dj)) x d.
Proof.
  revert d. induction x as [ | xj x IH]; intros [ | dj d] H;
    try discriminate; [reflexivity | ].
  simpl in H. injection H as H.
  unfold ones_like in *. cbn [map]. rewrite !map2_cons. cbn [combine].
  rewrite IH by assumption. rewrite !fmul_1_l. reflexivity.
Qed.

(** With a direction block of as many rows as there are samples: the
    parameters are broadcast and offset row by row. *)
Lemma gaussian_gradient_perturbed x I mu sigma (d : block) :
  length d = length x ->
  gaussian_gradient x I mu sigma (Some d)
  = Ok (map2 (fun xj dj =>
                gradient_row xj (I + col0 dj) (mu + col1 dj) (sigma + col2 dj))
             x d).
Proof.
  intros H. unfold gaussian_gradient, call4.
  assert (Lo : forall v, length (map (fun o => o * v) (ones_like x)) = length x)
    by (intros v; rewrite length_map; apply length_ones_like).
  assert (Ld : forall c : row -> float64, length (map c d) = length x)
    by (intros c; rewrite length_map; assumption).
  assert (Lp : forall v (c : row -> float64),
             length (map2 fadd (map (fun o => o * v) (ones_like x)) (map c d))
             = length x)
    by (intros v c; rewrite length_map2_min, Lo, Ld; lia).
  unfold ufunc2, ret_nd. cbn [bind].
  rewrite !nd_binop_array_scalar. cbn [bind].
  rewrite !nd_binop_arrays by (rewrite Lo, Ld; reflexivity).
  cbn [bind].
  rewrite gaussian_partial_I_arrays, gaussian_partial_mu_arrays,
    gaussian_partial_sigma_arrays by apply Lp.
  cbn [bind].
  rewrite zip_perturbed by assumption.
  rewrite concatenate_columns_arrays by (rewrite !length_map; reflexivity).
  rewrite columns_of_rows. unfold map2 at 1. rewrite map_map. reflexivity.
Qed.

(** The Hessian-vector product row by row, for a direction block of as many
    rows as there are samples. *)
Lemma hessian_product_rows x I mu sigma (d : block) epsilon :
  length d = length x ->
  hessian_product x I mu sigma d epsilon
  = Ok (map2 (fun xj dj =>
                row_map (fun v => v / epsilon)
                  (row_map2 fsub
                     (gradient_row xj (I + epsilon * col0 dj)
                                      (mu + epsilon * col1 dj)
                                      (sigma + epsilon * col2 dj))
                     (gradient_row xj I mu sigma)))
             x d).
Proof.
  intros H. unfold hessian_product.
  rewrite gaussian_gradient_perturbed by (rewrite length_map; assumption).
  rewrite (map2_map_r (row_map (fmul epsilon))).
  rewrite gaussian_gradient_base. cbn [bind].
  rewrite broadcast2_same_length
    by (rewrite length_map2, length_map; congruence).
  cbn [bind]. rewrite map_map2. f_equal.
  clear H. revert d. induction x as [ | xj x IH]; intros [ | dj d];
    try reflexivity.
  cbn [map]. rewrite !map2_cons. f_equal. apply IH.
Qed.

(** C2.  For every sample array [x], every peak, every direction block [d]
    of as many rows as there are samples and every epsilon,
    [hessian_product] returns
    (gradient(x, peak, epsilon * d) - gradient(x, peak)) / epsilon, where the
    call with a direction evaluates the three partials, at each sample, at the
    parameters offset by that row of the scaled direction block. *)
Theorem hessian_product_finite_difference
    (x : list float64) (I mu sigma : float64) (d : block) (epsilon : float64) :
  length d = length x ->
  exists g_perturbed g_base : block,
    gaussian_gradient x I mu sigma (Some (map (row_map (fmul epsilon)) d))
    = Ok g_perturbed
    /\ gaussian_gradient x I mu sigma None = Ok g_base
    /\ g_perturbed
       = map2 (fun xj dj =>
                 gradient_row xj (I + epsilon * col0 dj)
                                 (mu + epsilon * col1 dj)
                                 (sigma + epsilon * col2 dj)) x d
    /\ g_base = map (fun xj => gradient_row xj I mu sigma) x
    /\ hessian_product x I mu sigma d epsilon
       = Ok (map2 (fun p b => row_map (fun v => v / epsilon) (row_map2 fsub p b))
                  g_perturbed g_base).
Proof.
  intros H.
  eexists. eexists.
  split; [ | split; [ | split; [ | split]]].
  - rewrite gaussian_gradient_perturbed by (rewrite length_map; assumption).
    rewrite map2_map_r. reflexivity.
  - apply gaussian_gradient_base.
  - reflexivity.
  - reflexivity.
  - unfold hessian_product.
    rewrite gaussian_gradient_perturbed by (rewrite length_map; assumption).
    rewrite (map2_map_r (row_map (fmul epsilon))).
    rewrite gaussian_gradient_base. cbn [bind].
    rewrite broadcast2_same_length
      by (rewrite length_map2, length_map; congruence).
    cbn [bind]. rewrite map_map2. reflexivity.
Qed.

Lemma hessian_product_finite_difference_witness :
  length [zero_row; finite_row 1 0 0] = length [Fin 0; Fin 1]
  /\ exists hv : block,
       hessian_product [Fin 0; Fin 1] (Fin 500) (Fin 1600) (Fin 200)
         [zero_row; finite_row 1 0 0] (Fin 1e-5) = Ok hv.
Proof.
  split; [reflexivity | ].
  destruct (@hessian_product_finite_difference
              [Fin 0; Fin 1] (Fin 500) (Fin 1600) (Fin 200)
              [zero_row; finite_row 1 0 0] (Fin 1e-5) eq_refl)
    as (gp & gb & _ & _ & _ & _ & Hh).
  eexists. exact Hh.
Defined.

Lemma fdiv_zero_denominator x y : y = 0%R -> Fin x / Fin y = signed_inf x.
Proof. intros ->. apply fdiv_by_zero. Qed.

Lemma signed_inf_of_zero r : r = 0%R -> signed_inf r = NaN.
Proof. intros ->. apply signed_inf_zero. Qed.

Lemma Rsign_pos r : (0 < r)%R -> Rsign r = 1%R.
Proof.
  intros H. unfold Rsign.
  destruct (total_order_T 0 r) as [[Hlt | Heq] | Hgt]; try reflexivity; lra.
Qed.

(* ================================================================== *)
(** ** The pointwise dot product *)

Lemma getitem_nth_error {A : Type} (l : list A) i a :
  nth_error l i = Some a -> getitem l i = Ok a.
Proof. intros H. unfold getitem. rewrite H. reflexivity. Qed.

Lemma getitem_out_of_range {A : Type} (l : list A) i :
  (length l <= i)%nat -> getitem l i = Raise IndexError.
Proof.
  intros H. unfold getitem.
  apply nth_error_None in H. rewrite H. reflexivity.
Qed.

Lemma nth_error_in_range {A : Type} (l : list A) i :
  (i < length l)%nat -> exists a, nth_error l i = Some a.
Proof.
  intros H. destruct (nth_error l i) as [a | ] eqn:E; [eauto | ].
  apply nth_error_None in E. lia.
Qed.

Lemma length_setitem l i v : length (setitem l i v) = length l.
Proof.
  revert i. induction l as [ | h t IH]; intros [ | j]; simpl; auto.
Qed.

Lemma firstn_S_setitem l i v :
  (i < length l)%nat -> firstn (S i) (setitem l i v) = firstn i l ++ [v].
Proof.
  revert i. induction l as [ | h t IH]; intros [ | j] H; simpl in H.
  - lia.
  - lia.
  - reflexivity.
  - change (h :: firstn (S j) (setitem t j v) = h :: (firstn j t ++ [v])).
    rewrite IH by lia. reflexivity.
Qed.

Lemma skipn_nth_error {A : Type} (l : list A) i a :
  nth_error l i = Some a -> skipn i l = a :: skipn (S i) l.
Proof.
  revert i. induction l as [ | h t IH]; intros [ | j] H; simpl in H;
    try discriminate.
  - injection H as ->. reflexivity.
  - apply IH in H. exact H.
Qed.

Lemma nth_error_map2 {A B C : Type} (f : A -> B -> C) a b i x y :
  nth_error a i = Some x -> nth_error b i = Some y ->
  nth_error (map2 f a b) i = Some (f x y).
Proof.
  revert b i. induction a as [ | a0 a IH]; intros [ | b0 b] [ | j] Ha Hb;
    simpl in Ha, Hb; try discriminate.
  - injection Ha as ->. injection Hb as ->. reflexivity.
  - rewrite map2_cons. simpl. apply IH; assumption.
Qed.

(** The loop writes the row-wise inner products into [out_arr] from the
    left. *)
Lemma pointwise_loop_invariant (vector htd : block) m :
  forall k out_arr,
    (k + m = length vector)%nat -> length out_arr = length vector ->
    (length vector <= length htd)%nat ->
    pointwise_loop vector htd (seq k m) out_arr
    = Ok (firstn k out_arr ++ skipn k (map2 dot3 vector htd)).
Proof.
  induction m as [ | m IH]; intros k out_arr Hk Hout Hlen.
  - cbn [seq pointwise_loop].
    rewrite Nat.add_0_r in Hk. subst k.
    rewrite <- Hout at 1. rewrite firstn_all.
    rewrite skipn_all2; [rewrite app_nil_r; reflexivity | ].
    unfold map2. rewrite length_map, length_combine. lia.
  - cbn [seq pointwise_loop].
    destruct (@nth_error_in_range _ vector k) as [v Hv]; [lia | ].
    destruct (@nth_error_in_range _ htd k) as [h Hh]; [lia | ].
    rewrite (getitem_nth_error _ _ Hv), (getitem_nth_error _ _ Hh).
    cbn [bind].
    rewrite IH by (rewrite ?length_setitem; lia).
    rewrite firstn_S_setitem by lia.
    rewrite (skipn_nth_error _ _ (nth_error_map2 dot3 _ _ _ Hv Hh)).
    rewrite <- app_assoc. reflexivity.
Qed.

(** [pointwise_dotproduct] reduces two blocks to the array of their row-wise
    inner products. *)
Lemma pointwise_dotproduct_rows (vector htd : block) :
  (length vector <= length htd)%nat ->
  pointwise_dotproduct vector htd = Ok (map2 dot3 vector htd).
Proof.
  intros H. unfold pointwise_dotproduct.
  rewrite pointwise_loop_invariant by (rewrite ?repeat_length; lia).
  reflexivity.
Qed.

(** When the second block is shorter the subscript on it fails. *)
Lemma pointwise_loop_short (vector htd : block) m :
  forall k out_arr,
    (k + m = length vector)%nat -> (k <= length htd)%nat ->
    (length htd < length vector)%nat ->
    pointwise_loop vector htd (seq k m) out_arr = Raise IndexError.
Proof.
  induction m as [ | m IH]; intros k out_arr Hk Hle Hlt.
  - lia.
  - cbn [seq pointwise_loop].
    destruct (@nth_error_in_range _ vector k) as [v Hv]; [lia | ].
    rewrite (getitem_nth_error _ _ Hv). cbn [bind].
    destruct (Nat.eq_dec k (length htd)) as [-> | Hne].
    + rewrite getitem_out_of_range by lia. reflexivity.
    + destruct (@nth_error_in_range _ htd k) as [h Hh]; [lia | ].
      rewrite (getitem_nth_error _ _ Hh). cbn [bind].
      apply IH; lia.
Qed.

Lemma pointwise_dotproduct_short (vector htd : block) :
  (length htd < length vector)%nat ->
  pointwise_dotproduct vector htd = Raise IndexError.
Proof.
  intros H. unfold pointwise_dotproduct.
  apply pointwise_loop_short; lia.
Qed.

(* ================================================================== *)
(** ** Step size and conjugate coefficient *)

Lemma get_alpha_rows p0 p1 p2 (grad_in hess_in dir_vec : block) :
  length grad_in = length dir_vec -> length hess_in = length dir_vec ->
  get_alpha [p0; p1; p2] grad_in hess_in dir_vec
  = Ok (map2 f64.divide
          (map (fmul (Fin (-1)))
               (map2 fadd (map (fun r => dot3 r (Row p0 p1 p2)) hess_in)
                          (map2 dot3 dir_vec grad_in)))
          (map (fun v => v + Fin 1e-11) (map2 dot3 dir_vec hess_in))).
Proof.
  intros Hg Hh. unfold get_alpha, dot_block_vector. cbn [bind].
  rewrite !pointwise_dotproduct_rows by lia. cbn [bind].
  rewrite broadcast2_same_length
    by (rewrite length_map, length_map2_min; lia).
  cbn [bind].
  apply broadcast2_same_length.
  rewrite !length_map, !length_map2_min, length_map. lia.
Qed.

Lemma get_beta_rows (grad_in hess_in dir_vec : block) :
  length grad_in = length dir_vec -> length hess_in = length dir_vec ->
  get_beta grad_in hess_in dir_vec
  = Ok (map2 f64.divide (map2 dot3 grad_in hess_in) (map2 dot3 dir_vec hess_in)).
Proof.
  intros Hg Hh. unfold get_beta.
  rewrite !pointwise_dotproduct_rows by lia. cbn [bind].
  apply broadcast2_same_length.
  rewrite !length_map2_min. lia.
Qed.

(** C3.  For every parameter 3-vector and every triple of blocks of one
    number of rows, [get_alpha] returns at every sample row
    -((hess . params) + dot(dir, grad)) / (dot(dir, hess) + eps), with
    eps = 1e-11 in the denominator; [pointwise_dotproduct] reduces two blocks
    to the array of their row-wise inner products. *)
Theorem get_alpha_formula (p0 p1 p2 : float64) (grad_in hess_in dir_vec : block) :
  length grad_in = length dir_vec -> length hess_in = length dir_vec ->
  pointwise_dotproduct dir_vec grad_in = Ok (map2 dot3 dir_vec grad_in)
  /\ pointwise_dotproduct dir_vec hess_in = Ok (map2 dot3 dir_vec hess_in)
  /\ get_alpha [p0; p1; p2] grad_in hess_in dir_vec
     = Ok (map2 (fun gh d => alpha_spec (Row p0 p1 p2) (fst gh) (snd gh) d)
                (combine grad_in hess_in) dir_vec).
Proof.
  intros Hg Hh.
  split; [apply pointwise_dotproduct_rows; lia | ].
  split; [apply pointwise_dotproduct_rows; lia | ].
  rewrite get_alpha_rows by assumption. f_equal.
  revert grad_in hess_in Hg Hh.
  induction dir_vec as [ | d dir_vec IH]; intros [ | g grad_in] [ | h hess_in] Hg Hh;
    try discriminate; [reflexivity | ].
  simpl in Hg, Hh. injection Hg as Hg. injection Hh as Hh.
  cbn [map combine]. rewrite !map2_cons. cbn [map]. rewrite !map2_cons.
  rewrite IH by assumption. f_equal.
  unfold alpha_spec, f64.divide. cbn [fst snd]. rewrite fmul_m1_l. reflexivity.
Qed.

Lemma get_alpha_formula_witness :
  exists alphas,
    get_alpha [Fin 700; Fin 1800; Fin 300]
              [finite_row 1 2 3] [finite_row 0 1 0] [finite_row 1 1 1]
    = Ok alphas.
Proof.
  destruct (@get_alpha_formula (Fin 700) (Fin 1800) (Fin 300)
              [finite_row 1 2 3] [finite_row 0 1 0] [finite_row 1 1 1]
              eq_refl eq_refl) as (_ & _ & H).
  eexists. exact H.
Defined.

Lemma dot3_finite (r s : R * R * R) :
  dot3 (row_of r) (row_of s) = Fin (dot3R r s).
Proof. reflexivity. Qed.

(** C9.  [get_beta] divides the row-wise inner product of the gradient and
    Hessian-vector blocks by that of the direction and Hessian-vector blocks,
    with no regulariser: on finite blocks, at every row where the latter is
    exactly zero the result is not finite ([nan] for a zero numerator, an
    infinity otherwise), while [get_alpha], which adds eps to the same
    denominator, is finite there. *)
Theorem get_beta_division_by_zero
    (grad hess dir : list (R * R * R)) (p0 p1 p2 : R)
    (j : nat) (g h d : R * R * R) :
  length grad = length dir -> length hess = length dir ->
  nth_error grad j = Some g ->
  nth_error hess j = Some h ->
  nth_error dir j = Some d ->
  dot3R d h = 0%R ->
  (exists betas,
     get_beta (map row_of grad) (map row_of hess) (map row_of dir) = Ok betas
     /\ nth_error betas j = Some (beta_spec (row_of g) (row_of h) (row_of d))
     /\ beta_spec (row_of g) (row_of h) (row_of d) = signed_inf (dot3R g h)
     /\ ~ is_finite (beta_spec (row_of g) (row_of h) (row_of d)))
  /\ (exists alphas a,
        get_alpha [Fin p0; Fin p1; Fin p2]
                  (map row_of grad) (map row_of hess) (map row_of dir)
        = Ok alphas
        /\ nth_error alphas j = Some (Fin a)).
Proof.
  intros Hg Hh Ng Nh Nd Hz.
  assert (Rg : nth_error (map row_of grad) j = Some (row_of g))
    by (rewrite nth_error_map, Ng; reflexivity).
  assert (Rh : nth_error (map row_of hess) j = Some (row_of h))
    by (rewrite nth_error_map, Nh; reflexivity).
  assert (Rd : nth_error (map row_of dir) j = Some (row_of d))
    by (rewrite nth_error_map, Nd; reflexivity).
  assert (B : beta_spec (row_of g) (row_of h) (row_of d)
              = signed_inf (dot3R g h)).
  { unfold beta_spec. rewrite !dot3_finite.
    apply fdiv_zero_denominator. assumption. }
  split.
  - eexists. split; [ | split; [ | split]].
    + apply get_beta_rows; rewrite !length_map; assumption.
    + apply (nth_error_map2 f64.divide _ _ _
               (nth_error_map2 dot3 _ _ _ Rg Rh)
               (nth_error_map2 dot3 _ _ _ Rd Rh)).
    + exact B.
    + rewrite B. apply signed_inf_not_finite.
  - eexists. eexists. split.
    + apply get_alpha_rows; rewrite !length_map; assumption.
    + assert (Hn :
        nth_error
          (map (fmul (Fin (-1)))
             (map2 fadd
                (map (fun r => dot3 r (Row (Fin p0) (Fin p1) (Fin p2)))
                     (map row_of hess))
                (map2 dot3 (map row_of dir) (map row_of grad)))) j
        = Some (Fin (-1) * (dot3 (row_of h) (row_of (p0, p1, p2))
                            + dot3 (row_of d) (row_of g)))).
      { rewrite nth_error_map.
        rewrite (nth_error_map2 fadd
                   (map (fun r => dot3 r (Row (Fin p0) (Fin p1) (Fin p2)))
                        (map row_of hess))
                   (map2 dot3 (map row_of dir) (map row_of grad)) j
                   (x := dot3 (row_of h) (row_of (p0, p1, p2)))
                   (y := dot3 (row_of d) (row_of g))).
        - reflexivity.
        - rewrite nth_error_map, Rh. reflexivity.
        - apply nth_error_map2; assumption. }
      assert (Hd :
        nth_error
          (map (fun v => v + Fin 1e-11)
               (map2 dot3 (map row_of dir) (map row_of hess))) j
        = Some (dot3 (row_of d) (row_of h) + Fin 1e-11)).
      { rewrite nth_error_map, (nth_error_map2 dot3 _ _ _ Rd Rh).
        reflexivity. }
      rewrite (nth_error_map2 f64.divide _ _ _ Hn Hd).
      rewrite !dot3_finite. unfold f64.divide. cbn [fmul fadd].
      rewrite fdiv_fin; [reflexivity | ].
      rewrite Hz. lra.
Qed.

Lemma get_beta_division_by_zero_witness :
  exists betas,
    get_beta (map row_of [(1, 0, 0)%R]) (map row_of [(0, 0, 0)%R])
             (map row_of [(1, 0, 0)%R]) = Ok betas
    /\ nth_error betas 0
       = Some (beta_spec (row_of (1, 0, 0)%R) (row_of (0, 0, 0)%R)
                         (row_of (1, 0, 0)%R))
    /\ beta_spec (row_of (1, 0, 0)%R) (row_of (0, 0, 0)%R) (row_of (1, 0, 0)%R)
       = signed_inf (dot3R (1, 0, 0)%R (0, 0, 0)%R)
    /\ ~ is_finite (beta_spec (row_of (1, 0, 0)%R) (row_of (0, 0, 0)%R)
                              (row_of (1, 0, 0)%R)).
Proof.
  refine (proj1 (@get_beta_division_by_zero
                   [(1, 0, 0)%R] [(0, 0, 0)%R] [(1, 0, 0)%R] 700 1800 300
                   0 (1, 0, 0)%R (0, 0, 0)%R (1, 0, 0)%R
                   eq_refl eq_refl eq_refl eq_refl eq_refl _)).
  unfold dot3R. cbn [fst snd]. lra.
Defined.

(** The smallest input on which [get_beta] returns [nan]. *)
Lemma get_beta_nan_example :
  get_beta [finite_row 1 0 0] [finite_row 0 0 0] [finite_row 1 0 0]
  = Ok [NaN].
Proof.
  rewrite get_beta_rows by reflexivity.
  unfold map2. cbn [combine map fst snd].
  change (dot3 (finite_row 1 0 0) (finite_row 0 0 0))
    with (Fin (dot3R (1, 0, 0)%R (0, 0, 0)%R)).
  unfold f64.divide. rewrite fdiv_zero_denominator.
  - rewrite signed_inf_of_zero; [reflexivity | ].
    unfold dot3R. cbn [fst snd]. lra.
  - unfold dot3R. cbn [fst snd]. lra.
Qed.

(* ================================================================== *)
(** ** The sum of Gaussians *)

Lemma multiple_gaussians_loop_app x params l1 l2 out :
  multiple_gaussians_loop x params (l1 ++ l2) out
  = (out' <- multiple_gaussians_loop x params l1 out ;;
     multiple_gaussians_loop x params l2 out').
Proof.
  revert out. induction l1 as [ | i l1 IH]; intros out; [reflexivity | ].
  cbn [app multiple_gaussians_loop].
  destruct (getitem params i) as [p0 | e]; [ | reflexivity].
  destruct (getitem params (i + 1)) as [p1 | e]; [ | reflexivity].
  destruct (getitem params (i + 2)) as [p2 | e]; [ | reflexivity].
  cbn [bind].
  destruct (gaussian (Array x) (Scalar p0) (Scalar p1) (Scalar p2))
    as [g | e]; [ | reflexivity].
  cbn [bind].
  destruct (iadd out g) as [out' | e]; [ | reflexivity].
  cbn [bind]. apply IH.
Qed.

Lemma iadd_same_length out l :
  length l = length out ->
  exists out', iadd out (Array l) = Ok out' /\ length out' = length out.
Proof.
  intros H. destruct l as [ | v [ | w l]].
  - unfold iadd. rewrite H, Nat.eqb_refl. eexists. split; [reflexivity | ].
    rewrite length_map2_min. simpl in *. lia.
  - eexists. split; [reflexivity | ]. apply length_map.
  - unfold iadd. rewrite H, Nat.eqb_refl. eexists. split; [reflexivity | ].
    rewrite length_map2_min. lia.
Qed.

(** Every complete group of three parameters is evaluated and added. *)
Lemma multiple_gaussians_loop_complete x params m :
  forall k out,
    (3 * (k + m) <= length params)%nat -> length out = length x ->
    exists out',
      multiple_gaussians_loop x params
        (map (fun k => 3 * k)%nat (seq k m)) out = Ok out'
      /\ length out' = length x.
Proof.
  induction m as [ | m IH]; intros k out Hk Hout.
  - exists out. split; [reflexivity | assumption].
  - cbn [seq map multiple_gaussians_loop].
    destruct (@nth_error_in_range _ params (3 * k)) as [p0 H0]; [lia | ].
    destruct (@nth_error_in_range _ params (3 * k + 1)) as [p1 H1]; [lia | ].
    destruct (@nth_error_in_range _ params (3 * k + 2)) as [p2 H2]; [lia | ].
    rewrite (getitem_nth_error _ _ H0), (getitem_nth_error _ _ H1),
      (getitem_nth_error _ _ H2).
    cbn [bind]. rewrite gaussian_array_scalars. cbn [bind].
    destruct (@iadd_same_length out
                (map (fun xj => gaussian_at xj p0 p1 p2) x))
      as (out' & -> & Hlen); [rewrite length_map; congruence | ].
    cbn [bind]. apply IH; [lia | congruence].
Qed.

(** The group that is cut short by the end of the array raises. *)
Lemma multiple_gaussians_loop_incomplete x params q out :
  (3 * q < length params)%nat -> (length params < 3 * q + 3)%nat ->
  multiple_gaussians_loop x params [(3 * q)%nat] out = Raise IndexError.
Proof.
  intros Hlo Hhi. cbn [multiple_gaussians_loop].
  destruct (@nth_error_in_range _ params (3 * q)) as [p0 H0]; [lia | ].
  rewrite (getitem_nth_error _ _ H0). cbn [bind].
  destruct (Nat.eq_dec (length params) (3 * q + 1)) as [E | E].
  - rewrite getitem_out_of_range by lia. reflexivity.
  - destruct (@nth_error_in_range _ params (3 * q + 1)) as [p1 H1]; [lia | ].
    rewrite (getitem_nth_error _ _ H1). cbn [bind].
    rewrite getitem_out_of_range by lia. reflexivity.
Qed.

Lemma range3_incomplete n :
  (n mod 3 <> 0)%nat ->
  range3 n = map (fun k => 3 * k)%nat (seq 0 (n / 3)) ++ [(3 * (n / 3))%nat].
Proof.
  intros H. unfold range3.
  pose proof (Nat.div_mod_eq n 3) as E.
  pose proof (Nat.mod_upper_bound n 3) as B.
  replace ((n + 2) / 3)%nat with (S (n / 3)).
  - rewrite seq_S, map_app. reflexivity.
  - apply (Nat.div_unique (n + 2) 3 (S (n / 3)) (n mod 3 - 1)); lia.
Qed.

Lemma range3_complete n :
  (n mod 3 = 0)%nat ->
  range3 n = map (fun k => 3 * k)%nat (seq 0 (n / 3)).
Proof.
  intros H. unfold range3.
  pose proof (Nat.div_mod_eq n 3) as E.
  replace ((n + 2) / 3)%nat with (n / 3)%nat; [reflexivity | ].
  apply (Nat.div_unique (n + 2) 3 (n / 3) 2); lia.
Qed.

(** A parameter array of length 3n gives a curve of the length of [x]. *)
Lemma multiple_gaussians_on_triples x params :
  (length params mod 3 = 0)%nat ->
  exists y, multiple_gaussians x params = Ok y /\ length y = length x.
Proof.
  intros H. unfold multiple_gaussians. rewrite range3_complete by assumption.
  pose proof (Nat.div_mod_eq (length params) 3) as E.
  apply multiple_gaussians_loop_complete; [lia | apply length_map].
Qed.

(** C4, as the code has it.  For every parameter array whose length is not a
    multiple of 3, [multiple_gaussians] does no validation: it sums the
    Gaussians of the complete groups of three and then raises [IndexError]
    (not a configuration error) at the subscript past the end; no curve is
    returned. *)
Theorem multiple_gaussians_bad_length (x params : list float64) :
  (length params mod 3 <> 0)%nat ->
  (exists partial,
     multiple_gaussians_loop x params
       (map (fun k => 3 * k)%nat (seq 0 (length params / 3))) (zeros_like x)
     = Ok partial
     /\ length partial = length x)
  /\ multiple_gaussians x params = Raise IndexError.
Proof.
  intros H.
  pose proof (Nat.div_mod_eq (length params) 3) as E.
  pose proof (Nat.mod_upper_bound (length params) 3) as B.
  destruct (@multiple_gaussians_loop_complete x params (length params / 3)
              0%nat (zeros_like x)) as (partial & Hp & Hl);
    [lia | apply length_map | ].
  split; [exists partial; split; assumption | ].
  unfold multiple_gaussians.
  rewrite range3_incomplete, multiple_gaussians_loop_app by assumption.
  rewrite Hp. cbn [bind].
  apply multiple_gaussians_loop_incomplete; lia.
Qed.

Lemma multiple_gaussians_bad_length_witness :
  multiple_gaussians [Fin 0; Fin 1] (repeat (Fin 1) 10) = Raise IndexError.
Proof.
  refine (proj2 (@multiple_gaussians_bad_length
                   [Fin 0; Fin 1] (repeat (Fin 1) 10) _)).
  cbn. lia.
Defined.

(** C4 as stated fails on ten parameters: the error is an [IndexError], and
    it comes after three Gaussians have been summed. *)
Lemma configuration_error_counterexample :
  multiple_gaussians [Fin 0; Fin 1] (repeat (Fin 1) 10) = Raise IndexError
  /\ multiple_gaussians [Fin 0; Fin 1] (repeat (Fin 1) 10)
     <> Raise ConfigurationError
  /\ exists partial,
       multiple_gaussians_loop [Fin 0; Fin 1] (repeat (Fin 1) 10)
         [0; 3; 6]%nat (zeros_like [Fin 0; Fin 1]) = Ok partial.
Proof.
  destruct (@multiple_gaussians_loop_complete
              [Fin 0; Fin 1] (repeat (Fin 1) 10) 3 0%nat
              (zeros_like [Fin 0; Fin 1])) as (partial & Hp & _);
    [cbn; lia | reflexivity | ].
  cbn [seq map Nat.mul Nat.add] in Hp.
  assert (E : multiple_gaussians [Fin 0; Fin 1] (repeat (Fin 1) 10)
              = Raise IndexError).
  { unfold multiple_gaussians.
    change (range3 (length (repeat (Fin 1) 10)))
      with ([0; 3; 6] ++ [3 * 3])%nat.
    rewrite multiple_gaussians_loop_app, Hp. cbn [bind].
    apply multiple_gaussians_loop_incomplete; cbn; lia. }
  split; [exact E | split].
  - rewrite E. intros H. discriminate H.
  - exists partial. exact Hp.
Qed.

(* ================================================================== *)
(** ** The driver cells *)

Lemma range3_nonempty n :
  (0 < n)%nat -> exists rest, range3 n = 0%nat :: rest.
Proof.
  intros H. unfold range3.
  assert (E : exists c, ((n + 2) / 3 = S c)%nat).
  { destruct ((n + 2) / 3)%nat as [ | c] eqn:D; [ | eauto].
    apply Nat.div_small_iff in D; lia. }
  destruct E as [c ->]. cbn [seq map]. eauto.
Qed.

(** [list_dirvecs] unpacks the loop index, not a triplet of parameters. *)
Lemma list_dirvecs_type_error x start_params :
  start_params <> [] -> list_dirvecs x start_params = Raise TypeError.
Proof.
  intros H. unfold list_dirvecs.
  destruct (@range3_nonempty (length start_params)) as [rest ->].
  - destruct start_params; [contradiction | simpl; lia].
  - reflexivity.
Qed.

Lemma list_dirvecs_empty x : list_dirvecs x [] = Ok [].
Proof. reflexivity. Qed.

(** X24.  The last assignment of [single_iter], on a coefficient array and
    two blocks of one number of rows, forms -grad + beta * dir row by row. *)
Lemma direction_update_rows (grad_vec : block) (beta : list float64)
    (dir_vec : block) :
  length beta = length dir_vec -> length grad_vec = length dir_vec ->
  direction_update grad_vec beta dir_vec
  = Ok (map2 (fun g bd => row_map2 fadd (row_map fneg g)
                            (row_map (fmul (fst bd)) (snd bd)))
             grad_vec (combine beta dir_vec)).
Proof.
  intros Hb Hg. unfold direction_update.
  rewrite broadcast2_same_length by assumption. cbn [bind].
  rewrite broadcast2_same_length
    by (rewrite length_map, length_map2_min; lia).
  unfold map2 at 2. rewrite map2_map_l, map2_map_r. reflexivity.
Qed.

(** [single_iter] never returns: the call of [get_beta] with four arguments
    is on every path that has not raised before. *)
Lemma single_iter_never_returns x attempt dir_vec r :
  single_iter x attempt dir_vec <> Ok r.
Proof.
  unfold single_iter.
  destruct (gaussian_gradient_star x attempt) as [grad_vec | e];
    [ | discriminate].
  cbn [bind].
  destruct (hessian_product_star x attempt grad_vec (Fin 1e-5))
    as [hess_vec | e]; [ | discriminate].
  cbn [bind].
  destruct (get_alpha attempt grad_vec hess_vec dir_vec) as [alpha | e];
    [ | discriminate].
  cbn [bind].
  destruct (dot_vector_block alpha dir_vec) as [step | e]; [ | discriminate].
  cbn [bind].
  destruct (broadcast2 fadd attempt step) as [attempt' | e]; discriminate.
Qed.

(** On three parameters and a direction block of as many rows as there are
    samples, everything before the direction update succeeds and the call of
    [get_beta] raises. *)
Lemma single_iter_type_error x p0 p1 p2 (dir_vec : block) :
  length dir_vec = length x ->
  single_iter x [p0; p1; p2] dir_vec = Raise TypeError.
Proof.
  intros H. unfold single_iter, gaussian_gradient_star, hessian_product_star.
  rewrite gaussian_gradient_base. cbn [bind].
  rewrite hessian_product_rows by apply length_map. cbn [bind].
  rewrite get_alpha_rows
    by (rewrite ?length_map2_min, ?length_map; lia).
  cbn [bind]. unfold dot_vector_block.
  match goal with
  | |- context [Nat.eqb ?a ?b] => replace (Nat.eqb a b) with true
  end.
  - reflexivity.
  - symmetry. apply Nat.eqb_eq.
    unfold f64.divide.
    rewrite !length_map2_min, !length_map, !length_map2_min, !length_map,
      !length_map2_min, !length_map.
    lia.
Qed.

(** C5 on the code.  The direction vectors are never formed:
    [list_dirvecs] raises [TypeError] on every non-empty parameter array, and
    [single_iter] raises at its call of [get_beta], before the line that
    would compute -grad_vec + beta * dir_vec. *)
Theorem direction_update_never_reached
    (x start_params : list float64) (p0 p1 p2 : float64) (dir_vec : block) :
  start_params <> [] ->
  length dir_vec = length x ->
  list_dirvecs x start_params = Raise TypeError
  /\ single_iter x [p0; p1; p2] dir_vec = Raise TypeError
  /\ (forall attempt d r, single_iter x attempt d <> Ok r).
Proof.
  intros Hp Hd. split; [ | split].
  - apply list_dirvecs_type_error. assumption.
  - apply single_iter_type_error. assumption.
  - intros attempt d r. apply single_iter_never_returns.
Qed.

Lemma direction_update_never_reached_witness :
  list_dirvecs [Fin 0] [Fin 1; Fin 0; Fin 1] = Raise TypeError
  /\ single_iter [Fin 0] [Fin 1; Fin 0; Fin 1] [finite_row 1 0 0]
     = Raise TypeError.
Proof.
  destruct (@direction_update_never_reached
              [Fin 0] [Fin 1; Fin 0; Fin 1] (Fin 1) (Fin 0) (Fin 1)
              [finite_row 1 0 0]) as (H1 & H2 & _).
  - discriminate.
  - reflexivity.
  - split; assumption.
Defined.

Lemma while_switch_empty fuel x loop_num :
  while_switch fuel x (CgState true [] [] loop_num) = None.
Proof.
  induction fuel as [ | fuel IH]; [reflexivity | ].
  cbn [while_switch switch]. exact IH.
Qed.

(** C6 on the code.  [conjugate_gradient] has no tolerance and no iteration
    cap, and nothing assigns [switch]: on the empty parameter array the
    [while] loop is still running after any number of passes, and on every
    other parameter array [list_dirvecs] raises before the loop is entered.
    It never returns. *)
Theorem conjugate_gradient_never_returns
    (fuel : nat) (x y start_params : list float64) :
  (start_params = [] -> conjugate_gradient fuel x y start_params = None)
  /\ (start_params <> [] ->
      conjugate_gradient fuel x y start_params = Some (Raise TypeError))
  /\ (forall st, conjugate_gradient fuel x y start_params <> Some (Ok st)).
Proof.
  assert (He : start_params = [] ->
               conjugate_gradient fuel x y start_params = None).
  { intros ->. unfold conjugate_gradient. rewrite list_dirvecs_empty.
    apply while_switch_empty. }
  assert (Hn : start_params <> [] ->
               conjugate_gradient fuel x y start_params
               = Some (Raise TypeError)).
  { intros H. unfold conjugate_gradient.
    rewrite list_dirvecs_type_error by assumption. reflexivity. }
  split; [exact He | split; [exact Hn | ]].
  intros st. destruct start_params as [ | p ps].
  - rewrite He by reflexivity. discriminate.
  - rewrite Hn by discriminate. discriminate.
Qed.

Lemma conjugate_gradient_never_returns_witness :
  conjugate_gradient 1000 [Fin 0] [Fin 0] [] = None
  /\ conjugate_gradient 1000 [Fin 0] [Fin 0] [Fin 1; Fin 0; Fin 1]
     = Some (Raise TypeError).
Proof.
  split.
  - apply (proj1 (@conjugate_gradient_never_returns 1000 [Fin 0] [Fin 0] [])).
    reflexivity.
  - apply (proj1 (proj2 (@conjugate_gradient_never_returns
                           1000 [Fin 0] [Fin 0] [Fin 1; Fin 0; Fin 1]))).
    discriminate.
Defined.

(* ================================================================== *)
(** ** Further properties of the helper cells *)

Lemma fadd_comm a b : a + b = b + a.
Proof.
  destruct a, b; cbn [fadd]; try reflexivity. f_equal. ring.
Qed.

Lemma fmul_comm a b : a * b = b * a.
Proof.
  destruct a, b; cbn [fmul]; try reflexivity. f_equal. ring.
Qed.

Lemma fadd_0_l v : Fin 0 + v = v.
Proof. destruct v; cbn [fadd]; try reflexivity. f_equal. ring. Qed.

Lemma dot3_comm r s : dot3 r s = dot3 s r.
Proof.
  unfold dot3. rewrite (fmul_comm (col0 r)), (fmul_comm (col1 r)),
    (fmul_comm (col2 r)). reflexivity.
Qed.

Lemma map2_comm {A B : Type} (f : A -> A -> B) a b :
  (forall x y, f x y = f y x) -> map2 f a b = map2 f b a.
Proof.
  intros H. revert b. induction a as [ | x a IH]; intros [ | y b];
    try reflexivity.
  rewrite !map2_cons, IH, H. reflexivity.
Qed.

(** X1.  [pointwise_dotproduct] takes its length from the first block: when
    the second block has at least as many rows the result is the array of the
    row-wise inner products of the first block with the leading rows of the
    second (further rows are ignored, two empty blocks give the empty array);
    when the second block is shorter the subscript on it raises
    [IndexError]. *)
Theorem pointwise_dotproduct_bounds (vector htd : block) :
  pointwise_dotproduct vector htd
  = if (length vector <=? length htd)%nat
    then Ok (map2 dot3 vector (firstn (length vector) htd))
    else Raise IndexError.
Proof.
  destruct (length vector <=? length htd)%nat eqn:E.
  - apply Nat.leb_le in E.
    rewrite pointwise_dotproduct_rows by assumption. f_equal.
    clear E. revert htd. induction vector as [ | v vector IH]; intros [ | h htd];
      try reflexivity.
    cbn [length firstn]. rewrite !map2_cons, IH. reflexivity.
  - apply Nat.leb_gt in E. apply pointwise_dotproduct_short. assumption.
Qed.

(** X2.  On two blocks of one number of rows [pointwise_dotproduct] does not
    depend on the order of its arguments. *)
Theorem pointwise_dotproduct_symmetric (a b : block) :
  length a = length b ->
  pointwise_dotproduct a b = pointwise_dotproduct b a.
Proof.
  intros H. rewrite !pointwise_dotproduct_rows by lia.
  f_equal. apply map2_comm. apply dot3_comm.
Qed.

Lemma pointwise_dotproduct_symmetric_witness :
  pointwise_dotproduct [finite_row 1 2 3; zero_row] [finite_row 4 5 6; zero_row]
  = pointwise_dotproduct [finite_row 4 5 6; zero_row] [finite_row 1 2 3; zero_row].
Proof.
  apply (@pointwise_dotproduct_symmetric
           [finite_row 1 2 3; zero_row] [finite_row 4 5 6; zero_row]).
  reflexivity.
Defined.

(** X3.  [get_alpha] needs exactly three parameters: with any other number
    the product of the Hessian-vector block with the parameters raises
    [ValueError], whatever the blocks are. *)
Theorem get_alpha_wrong_parameter_count
    (params : list float64) (grad_in hess_in dir_vec : block) :
  length params <> 3%nat ->
  get_alpha params grad_in hess_in dir_vec = Raise ValueError.
Proof.
  intros H. unfold get_alpha, dot_block_vector.
  destruct params as [ | a [ | b [ | c [ | d params]]]]; try reflexivity.
  contradiction H. reflexivity.
Qed.

Lemma get_alpha_wrong_parameter_count_witness :
  get_alpha [Fin 700; Fin 1800] [zero_row] [zero_row] [zero_row]
  = Raise ValueError.
Proof.
  apply (@get_alpha_wrong_parameter_count
           [Fin 700; Fin 1800] [zero_row] [zero_row] [zero_row]).
  discriminate.
Defined.

(** X4.  [get_beta] subscripts the Hessian-vector block with the row indices
    of the gradient block and then of the direction block: when the
    Hessian-vector block has fewer rows than either of them it raises
    [IndexError]. *)
Theorem get_beta_short_hessian (grad_in hess_in dir_vec : block) :
  (length hess_in < length grad_in)%nat
  \/ (length hess_in < length dir_vec)%nat ->
  get_beta grad_in hess_in dir_vec = Raise IndexError.
Proof.
  intros H. unfold get_beta.
  destruct (Nat.lt_ge_cases (length hess_in) (length grad_in)) as [Hg | Hg].
  - rewrite pointwise_dotproduct_short by assumption. reflexivity.
  - rewrite pointwise_dotproduct_rows by assumption. cbn [bind].
    rewrite pointwise_dotproduct_short by lia. reflexivity.
Qed.

Lemma get_beta_short_hessian_witness :
  get_beta [zero_row; zero_row] [zero_row] [zero_row] = Raise IndexError.
Proof.
  apply (@get_beta_short_hessian [zero_row; zero_row] [zero_row] [zero_row]).
  left. cbn. lia.
Defined.

(** X6.  Where the Hessian-vector block is zero the regulariser alone is the
    denominator of [get_alpha]: on finite blocks, at a row whose
    Hessian-vector row is zero, the step size is -(dir . grad) / 1e-11, the
    gradient term magnified by 1e11 (so it is non-zero whenever dir . grad
    is). *)
Theorem get_alpha_flat_curvature
    (grad hess dir : list (R * R * R)) (p0 p1 p2 : R)
    (j : nat) (g d : R * R * R) :
  length grad = length dir -> length hess = length dir ->
  nth_error grad j = Some g ->
  nth_error hess j = Some (0, 0, 0)%R ->
  nth_error dir j = Some d ->
  exists alphas,
    get_alpha [Fin p0; Fin p1; Fin p2]
              (map row_of grad) (map row_of hess) (map row_of dir) = Ok alphas
    /\ nth_error alphas j = Some (Fin (- dot3R d g / eps)).
Proof.
  intros Hg Hh Ng Nh Nd.
  assert (Rg : nth_error (map row_of grad) j = Some (row_of g))
    by (rewrite nth_error_map, Ng; reflexivity).
  assert (Rh : nth_error (map row_of hess) j = Some (row_of (0, 0, 0)%R))
    by (rewrite nth_error_map, Nh; reflexivity).
  assert (Rd : nth_error (map row_of dir) j = Some (row_of d))
    by (rewrite nth_error_map, Nd; reflexivity).
  eexists. split.
  - apply get_alpha_rows; rewrite !length_map; assumption.
  - assert (Hn :
      nth_error
        (map (fmul (Fin (-1)))
           (map2 fadd
              (map (fun r => dot3 r (Row (Fin p0) (Fin p1) (Fin p2)))
                   (map row_of hess))
              (map2 dot3 (map row_of dir) (map row_of grad)))) j
      = Some (Fin (-1) * (dot3 (row_of (0, 0, 0)%R) (row_of (p0, p1, p2))
                          + dot3 (row_of d) (row_of g)))).
    { rewrite nth_error_map.
      rewrite (nth_error_map2 fadd
                 (map (fun r => dot3 r (Row (Fin p0) (Fin p1) (Fin p2)))
                      (map row_of hess))
                 (map2 dot3 (map row_of dir) (map row_of grad)) j
                 (x := dot3 (row_of (0, 0, 0)%R) (row_of (p0, p1, p2)))
                 (y := dot3 (row_of d) (row_of g))).
      - reflexivity.
      - rewrite nth_error_map, Rh. reflexivity.
      - apply nth_error_map2; assumption. }
    assert (Hd :
      nth_error
        (map (fun v => v + Fin 1e-11)
             (map2 dot3 (map row_of dir) (map row_of hess))) j
      = Some (dot3 (row_of d) (row_of (0, 0, 0)%R) + Fin 1e-11)).
    { rewrite nth_error_map, (nth_error_map2 dot3 _ _ _ Rd Rh).
      reflexivity. }
    rewrite (nth_error_map2 f64.divide _ _ _ Hn Hd).
    rewrite !dot3_finite. unfold f64.divide. cbn [fmul fadd].
    pose proof eps_pos as Hp.
    assert (Hden : (dot3R d (0, 0, 0) + 1e-11 = eps)%R)
      by (unfold dot3R, eps; cbn [fst snd]; ring).
    rewrite fdiv_fin by (rewrite Hden; lra).
    do 2 f_equal. rewrite Hden. unfold dot3R. cbn [fst snd]. field. lra.
Qed.

Lemma get_alpha_flat_curvature_witness :
  exists alphas,
    get_alpha [Fin 700; Fin 1800; Fin 300]
              (map row_of [(1, 2, 3)%R]) (map row_of [(0, 0, 0)%R])
              (map row_of [(1, 1, 1)%R]) = Ok alphas
    /\ nth_error alphas 0
       = Some (Fin (- dot3R (1, 1, 1)%R (1, 2, 3)%R / eps)).
Proof.
  apply (@get_alpha_flat_curvature
           [(1, 2, 3)%R] [(0, 0, 0)%R] [(1, 1, 1)%R] 700 1800 300
           0 (1, 2, 3)%R (1, 1, 1)%R
           eq_refl eq_refl eq_refl eq_refl eq_refl).
Defined.

Lemma f64_abs_neg v : f64.abs (- v) = f64.abs v.
Proof.
  destruct v; cbn [fneg f64.abs]; try reflexivity.
  f_equal. apply Rabs_Ropp.
Qed.

(** X8.  [gaussian] loses the sign of the amplitude: on every sample array
    and for all parameters, the amplitudes I and -I give the same curve. *)
Theorem gaussian_even_in_amplitude (x : list float64) (I mu sigma : float64) :
  gaussian (Array x) (Scalar (- I)) (Scalar mu) (Scalar sigma)
  = gaussian (Array x) (Scalar I) (Scalar mu) (Scalar sigma).
Proof.
  rewrite !gaussian_array_scalars. do 2 f_equal.
  apply map_ext. intros xj. unfold gaussian_at. cbv zeta.
  rewrite f64_abs_neg. reflexivity.
Qed.

Lemma broadcast2_mismatch {A B C : Type} (f : A -> B -> C) a b :
  length a <> length b -> length a <> 1%nat -> length b <> 1%nat ->
  broadcast2 f a b = Raise ValueError.
Proof.
  intros Hab Ha Hb. unfold broadcast2.
  apply Nat.eqb_neq in Hab. rewrite Hab.
  destruct a as [ | x0 [ | x1 a]]; destruct b as [ | y0 [ | y1 b]];
    try reflexivity; cbn in Ha, Hb; congruence.
Qed.

(** X11.  A direction block whose number of rows is neither the number of
    samples nor one, for more than one sample, cannot be broadcast:
    [gaussian_gradient] raises [ValueError], and so does
    [hessian_product]. *)
Theorem gaussian_gradient_direction_shape
    (x : list float64) (I mu sigma : float64) (d : block) (epsilon : float64) :
  length d <> length x -> length x <> 1%nat -> length d <> 1%nat ->
  gaussian_gradient x I mu sigma (Some d) = Raise ValueError
  /\ hessian_product x I mu sigma d epsilon = Raise ValueError.
Proof.
  intros Hdx Hx Hd.
  assert (G : forall d' : block,
             length d' = length d ->
             gaussian_gradient x I mu sigma (Some d') = Raise ValueError).
  { intros d' Hl. unfold gaussian_gradient, call4, ufunc2, ret_nd.
    cbn [bind]. rewrite !nd_binop_array_scalar. cbn [bind].
    unfold nd_binop at 1. cbn [items].
    rewrite broadcast2_mismatch;
      [reflexivity | | | ];
      rewrite ?length_map; unfold ones_like; rewrite ?length_map; congruence. }
  split.
  - apply G. reflexivity.
  - unfold hessian_product. rewrite G by apply length_map. reflexivity.
Qed.

Lemma gaussian_gradient_direction_shape_witness :
  gaussian_gradient [Fin 0; Fin 1] (Fin 500) (Fin 1600) (Fin 200)
                    (Some [zero_row; zero_row; zero_row])
  = Raise ValueError.
Proof.
  refine (proj1 (@gaussian_gradient_direction_shape
                   [Fin 0; Fin 1] (Fin 500) (Fin 1600) (Fin 200)
                   [zero_row; zero_row; zero_row] (Fin 1e-5) _ _ _));
    cbn; lia.
Defined.

Lemma nd_binop_array_single f x y :
  nd_binop f (Array x) (Array [y]) = Ok (Array (map (fun xj => f xj y) x)).
Proof.
  unfold nd_binop. cbn [items]. rewrite broadcast2_one_r. reflexivity.
Qed.

Lemma zip_uniform (x : list float64) (a b c : float64) :
  combine (combine (combine x (map (fun _ => a) x)) (map (fun _ => b) x))
          (map (fun _ => c) x)
  = map (fun xj => (xj, a, b, c)) x.
Proof.
  induction x as [ | xj x IH]; [reflexivity | ].
  cbn [map combine]. rewrite IH. reflexivity.
Qed.

(** X12.  A direction block of a single row is stretched over the samples:
    [gaussian_gradient] then evaluates the three partials at every sample
    with the parameters offset by that one row. *)
Theorem gaussian_gradient_single_row_direction
    (x : list float64) (I mu sigma : float64) (d0 : row) :
  gaussian_gradient x I mu sigma (Some [d0])
  = Ok (map (fun xj =>
               gradient_row xj (I + col0 d0) (mu + col1 d0) (sigma + col2 d0))
            x).
Proof.
  unfold gaussian_gradient, call4, ufunc2, ret_nd. cbn [bind map].
  rewrite !nd_binop_array_scalar. cbn [bind].
  rewrite !nd_binop_array_single. cbn [bind].
  unfold ones_like. rewrite !map_map.
  rewrite gaussian_partial_I_arrays, gaussian_partial_mu_arrays,
    gaussian_partial_sigma_arrays by apply length_map.
  cbn [bind]. rewrite !fmul_1_l, zip_uniform, !map_map.
  rewrite concatenate_columns_arrays by (rewrite !length_map; reflexivity).
  rewrite columns_of_rows. reflexivity.
Qed.

(** X14.  The notebook's trial run composes the cells: for every sample
    array of length N and every two parameter triples,
    [gaussian_gradient] gives a block of N rows, that block is accepted as a
    direction by [gaussian_gradient] and by [hessian_product], which give N
    rows again, and [get_alpha] on these blocks gives N step sizes. *)
Theorem trial_run_shapes
    (x : list float64) (a1 b1 c1 a2 b2 c2 epsilon : float64) :
  exists (tmp2 tmp hess_tmp : block) (alpha_tmp : list float64),
    gaussian_gradient_star x [a1; b1; c1] = Ok tmp2
    /\ gaussian_gradient x a2 b2 c2 (Some tmp2) = Ok tmp
    /\ hessian_product_star x [a2; b2; c2] tmp2 epsilon = Ok hess_tmp
    /\ get_alpha [a2; b2; c2] tmp2 hess_tmp tmp2 = Ok alpha_tmp
    /\ length tmp2 = length x /\ length tmp = length x
    /\ length hess_tmp = length x /\ length alpha_tmp = length x.
Proof.
  assert (L2 : length (map (fun xj => gradient_row xj a1 b1 c1) x) = length x)
    by apply length_map.
  do 4 eexists.
  split; [apply gaussian_gradient_base | ].
  split; [apply gaussian_gradient_perturbed; exact L2 | ].
  split; [apply hessian_product_rows; exact L2 | ].
  split.
  - apply get_alpha_rows; [reflexivity | ].
    rewrite length_map2_min. lia.
  - repeat split; try exact L2;
      repeat (rewrite length_map || rewrite length_map2_min); lia.
Qed.

(* ================================================================== *)
(** ** The sum of Gaussians, peak by peak *)

Lemma length_params_of_peaks peaks :
  length (params_of_peaks peaks) = (3 * length peaks)%nat.
Proof.
  induction peaks as [ | p peaks IH]; [reflexivity | ].
  cbn [params_of_peaks flat_map app length] in *.
  unfold params_of_peaks in IH. rewrite IH. lia.
Qed.

Lemma range3_triples n :
  range3 (3 * n) = map (fun k => 3 * k)%nat (seq 0 n).
Proof.
  rewrite range3_complete.
  - rewrite Nat.mul_comm, Nat.div_mul by discriminate. reflexivity.
  - rewrite Nat.mul_comm. apply Nat.Div0.mod_mul.
Qed.

Lemma triples_shift n :
  map (fun k => 3 * k)%nat (seq 0 (S n))
  = 0%nat :: map (fun i => 3 + i)%nat (map (fun k => 3 * k)%nat (seq 0 n)).
Proof.
  cbn [seq map]. f_equal. rewrite <- seq_shift, !map_map.
  apply map_ext. intros k. lia.
Qed.

(** The passes after the first see the rest of the array. *)
Lemma multiple_gaussians_loop_shift x a b c rest indices out :
  multiple_gaussians_loop x (a :: b :: c :: rest)
    (map (fun i => 3 + i)%nat indices) out
  = multiple_gaussians_loop x rest indices out.
Proof.
  revert out. induction indices as [ | i indices IH]; intros out;
    [reflexivity | ].
  cbn [map multiple_gaussians_loop].
  change (getitem (a :: b :: c :: rest) (3 + i)) with (getitem rest i).
  change (getitem (a :: b :: c :: rest) (3 + i + 1))
    with (getitem rest (i + 1)).
  change (getitem (a :: b :: c :: rest) (3 + i + 2))
    with (getitem rest (i + 2)).
  destruct (getitem rest i) as [p0 | e]; [ | reflexivity].
  destruct (getitem rest (i + 1)) as [p1 | e]; [ | reflexivity].
  destruct (getitem rest (i + 2)) as [p2 | e]; [ | reflexivity].
  cbn [bind].
  destruct (gaussian (Array x) (Scalar p0) (Scalar p1) (Scalar p2))
    as [g | e]; [ | reflexivity].
  cbn [bind].
  destruct (iadd out g) as [out' | e]; [ | reflexivity].
  cbn [bind]. apply IH.
Qed.

Lemma iadd_array out l :
  length l = length out -> iadd out (Array l) = Ok (map2 fadd out l).
Proof.
  intros H. destruct l as [ | v [ | w l]].
  - unfold iadd. rewrite H, Nat.eqb_refl. reflexivity.
  - destruct out as [ | o [ | o' out]]; try discriminate. reflexivity.
  - unfold iadd. rewrite H, Nat.eqb_refl. reflexivity.
Qed.

Lemma length_add_peak x acc p :
  length acc = length x -> length (add_peak x acc p) = length x.
Proof.
  intros H. unfold add_peak. rewrite length_map2_min, length_map. lia.
Qed.

Lemma multiple_gaussians_loop_peaks x peaks :
  forall out,
    length out = length x ->
    multiple_gaussians_loop x (params_of_peaks peaks)
      (map (fun k => 3 * k)%nat (seq 0 (length peaks))) out
    = Ok (fold_left (add_peak x) peaks out).
Proof.
  induction peaks as [ | [[I0 mu] sigma] peaks IH]; intros out Hout;
    [reflexivity | ].
  cbn [length]. rewrite triples_shift.
  cbn [params_of_peaks flat_map app fst snd].
  change (flat_map
            (fun p : float64 * float64 * float64 =>
               [fst (fst p); snd (fst p); snd p]) peaks)
    with (params_of_peaks peaks).
  cbn [multiple_gaussians_loop getitem nth_error Nat.add bind].
  rewrite gaussian_array_scalars. cbn [bind].
  rewrite iadd_array by (rewrite length_map; congruence). cbn [bind].
  rewrite multiple_gaussians_loop_shift.
  rewrite IH by (apply (@length_add_peak x out (I0, mu, sigma)); assumption).
  reflexivity.
Qed.

(** X15.  On the parameter array of a list of peaks [multiple_gaussians]
    returns the sum of the peaks' curves: starting from the zero curve, the
    curve of each peak (the Gaussian formula at every sample) is added in
    turn; with no peak the result is the zero curve. *)
Theorem multiple_gaussians_sums_peaks
    (x : list float64) (peaks : list (float64 * float64 * float64)) :
  multiple_gaussians x (params_of_peaks peaks) = Ok (sum_of_peaks x peaks)
  /\ length (sum_of_peaks x peaks) = length x
  /\ multiple_gaussians x [] = Ok (map (fun _ => Fin 0) x).
Proof.
  split; [ | split].
  - unfold multiple_gaussians.
    rewrite length_params_of_peaks, range3_triples.
    apply multiple_gaussians_loop_peaks. apply length_map.
  - unfold sum_of_peaks.
    assert (G : forall out, length out = length x ->
                length (fold_left (add_peak x) peaks out) = length x).
    { induction peaks as [ | p peaks IH]; intros out Hout; [exact Hout | ].
      cbn [fold_left]. apply IH. apply length_add_peak. assumption. }
    apply G. apply length_map.
  - reflexivity.
Qed.

(* ================================================================== *)
(** ** The slices of the parameter array, and the trial cell *)

Lemma concat_slices m :
  forall p : list float64,
    (length p <= 3 * m)%nat ->
    concat (map (fun i => firstn 3 (skipn i p))
                (map (fun k => 3 * k)%nat (seq 0 m))) = p.
Proof.
  induction m as [ | m IH]; intros p H.
  - destruct p; [reflexivity | simpl in H; lia].
  - rewrite triples_shift. cbn [map concat skipn].
    rewrite map_map.
    rewrite (map_ext (fun i => firstn 3 (skipn (3 + i) p))
                     (fun i => firstn 3 (skipn i (skipn 3 p)))).
    + rewrite IH.
      * apply firstn_skipn.
      * rewrite length_skipn. lia.
    + intros i. rewrite skipn_skipn. f_equal. f_equal. lia.
Qed.

(** X17.  The slices [start_params[i:i+3]] that [conjugate_gradient] collects
    lose nothing: concatenated they give back the parameter array, and each
    has at most three entries (the last one fewer when the length is not a
    multiple of 3; no slice is rejected). *)
Theorem slices3_partition (start_params : list float64) :
  concat (slices3 start_params) = start_params
  /\ Forall (fun s : list float64 => (length s <= 3)%nat)
            (slices3 start_params)
  /\ length (slices3 start_params) = ((length start_params + 2) / 3)%nat.
Proof.
  unfold slices3, range3. split; [ | split].
  - apply concat_slices.
    pose proof (Nat.div_mod_eq (length start_params + 2) 3) as E.
    pose proof (Nat.mod_upper_bound (length start_params + 2) 3) as B.
    lia.
  - apply Forall_forall. intros s Hs. apply in_map_iff in Hs.
    destruct Hs as [i [<- _]]. apply firstn_le_length.
  - rewrite !length_map. apply length_seq.
Qed.

Lemma gradient_tmp_loop_repeats x p0 p1 p2 rest indices :
  forall gradient_tmp,
    gradient_tmp_loop x (p0 :: p1 :: p2 :: rest) indices gradient_tmp
    = Ok (gradient_tmp
          ++ repeat (map (fun xj => gradient_row xj p0 p1 p2) x)
                    (length indices)).
Proof.
  induction indices as [ | i indices IH]; intros gradient_tmp.
  - cbn [gradient_tmp_loop length repeat]. rewrite app_nil_r. reflexivity.
  - cbn [gradient_tmp_loop getitem nth_error bind].
    rewrite gaussian_gradient_base. cbn [bind].
    rewrite IH, <- app_assoc. reflexivity.
Qed.

(** X18.  The trial cell that fills [gradient_tmp] does not use its loop
    index: on the parameter array of n >= 1 peaks it returns n copies of the
    gradient block of the first peak. *)
Theorem gradient_tmp_cell_repeats_first_peak
    (x : list float64) (I mu sigma : float64)
    (peaks : list (float64 * float64 * float64)) :
  gradient_tmp_cell x (params_of_peaks ((I, mu, sigma) :: peaks))
  = Ok (repeat (map (fun xj => gradient_row xj I mu sigma) x)
               (S (length peaks))).
Proof.
  unfold gradient_tmp_cell.
  assert (M : multiple_gaussians x (params_of_peaks ((I, mu, sigma) :: peaks))
              = Ok (sum_of_peaks x ((I, mu, sigma) :: peaks))).
  { unfold multiple_gaussians.
    rewrite length_params_of_peaks, range3_triples.
    apply multiple_gaussians_loop_peaks. apply length_map. }
  rewrite M. cbn [bind].
  rewrite length_params_of_peaks, range3_triples.
  cbn [params_of_peaks flat_map app fst snd].
  rewrite gradient_tmp_loop_repeats.
  rewrite length_map, length_seq. reflexivity.
Qed.

(* ================================================================== *)
(** ** Further error behaviour *)

(** X20.  With three parameters, [get_alpha] subscripts the gradient block
    with the row indices of the direction block: a gradient block with fewer
    rows than the direction block raises [IndexError]. *)
Theorem get_alpha_short_gradient
    (p0 p1 p2 : float64) (grad_in hess_in dir_vec : block) :
  (length grad_in < length dir_vec)%nat ->
  get_alpha [p0; p1; p2] grad_in hess_in dir_vec = Raise IndexError.
Proof.
  intros H. unfold get_alpha, dot_block_vector. cbn [bind].
  rewrite pointwise_dotproduct_short by assumption. reflexivity.
Qed.

Lemma get_alpha_short_gradient_witness :
  get_alpha [Fin 700; Fin 1800; Fin 300] [zero_row] [zero_row; zero_row]
            [zero_row; zero_row]
  = Raise IndexError.
Proof.
  apply (@get_alpha_short_gradient (Fin 700) (Fin 1800) (Fin 300)
           [zero_row] [zero_row; zero_row] [zero_row; zero_row]).
  cbn. lia.
Defined.

(** X21.  [single_iter] unpacks its parameters into the call of
    [gaussian_gradient]: a parameter array of four entries raises
    [IndexError] (the fourth is taken for the direction and subscripted), and
    one of fewer than three or more than four entries raises [TypeError], in
    both cases before anything is computed. *)
Theorem single_iter_parameter_count (x attempt : list float64) (dir_vec : block) :
  length attempt <> 3%nat ->
  single_iter x attempt dir_vec
  = if (length attempt =? 4)%nat then Raise IndexError else Raise TypeError.
Proof.
  intros H. unfold single_iter, gaussian_gradient_star.
  destruct attempt as [ | a [ | b [ | c [ | d [ | e attempt]]]]];
    try reflexivity.
  contradiction H. reflexivity.
Qed.

Lemma single_iter_parameter_count_witness :
  single_iter [Fin 0] [Fin 1] [zero_row]
  = if (length [Fin 1] =? 4)%nat then Raise IndexError else Raise TypeError.
Proof.
  apply (@single_iter_parameter_count [Fin 0] [Fin 1] [zero_row]).
  discriminate.
Defined.

(* ================================================================== *)
(** ** Symmetries of the gradient *)

(** X23.  The cell [gaussian_partial_I] sees only the sign of the amplitude:
    wherever the amplitude denominator is not zero its value at amplitude I
    is sign(I) times its value at amplitude 1, so it is the same for all
    positive amplitudes and zero at I = 0. *)
Theorem gaussian_partial_I_sign_only (xs : list R) (I mu sigma : R) :
  (sqrt (2 * PI) * sigma + eps <> 0)%R ->
  exists qs : list R,
    gaussian_partial_I (Array (map Fin xs)) (Scalar (Fin 1)) (Scalar (Fin mu))
                       (Scalar (Fin sigma)) = Ok (Array (map Fin qs))
    /\ gaussian_partial_I (Array (map Fin xs)) (Scalar (Fin I))
                          (Scalar (Fin mu)) (Scalar (Fin sigma))
       = Ok (Array (map (fun q => Fin (Rsign I * q)) qs))
    /\ Rsign 0 = 0%R
    /\ ((0 < I)%R -> Rsign I = 1%R).
Proof.
  intros Hd.
  assert (K : forall x J,
             gaussian_partial_I_at (Fin x) (Fin J) (Fin mu) (Fin sigma)
             = Fin (Rsign J / (sqrt (2 * PI) * sigma + eps)
                    * Rtrigo_def.exp
                        (- ((x - mu) * (x - mu))
                         / (2 * (sigma * sigma) + eps)))).
  { intros x J. unfold gaussian_partial_I_at. cbv zeta.
    rewrite exponential_finite, np_sqrt_2pi. unfold f64.divide.
    cbn [f64.sign fmul fadd]. rewrite fdiv_fin by assumption. reflexivity. }
  exists (map (fun x =>
                 (Rsign 1 / (sqrt (2 * PI) * sigma + eps)
                  * Rtrigo_def.exp
                      (- ((x - mu) * (x - mu)) / (2 * (sigma * sigma) + eps)))%R)
              xs).
  rewrite !gaussian_partial_I_array_scalars, !map_map.
  split; [ | split; [ | split]].
  - do 2 f_equal. apply map_ext. intros x. apply K.
  - do 2 f_equal. apply map_ext. intros x. rewrite K. f_equal.
    rewrite (@Rsign_pos 1) by lra. unfold Rdiv. ring.
  - unfold Rsign.
    destruct (total_order_T 0 0) as [[Hlt | Heq] | Hgt]; try reflexivity; lra.
  - apply Rsign_pos.
Qed.

Lemma gaussian_partial_I_sign_only_witness :
  exists qs : list R,
    gaussian_partial_I (Array (map Fin [1500%R])) (Scalar (Fin 1))
                       (Scalar (Fin 1600)) (Scalar (Fin 200))
    = Ok (Array (map Fin qs))
    /\ gaussian_partial_I (Array (map Fin [1500%R])) (Scalar (Fin (-500)))
                          (Scalar (Fin 1600)) (Scalar (Fin 200))
       = Ok (Array (map (fun q => Fin (Rsign (-500) * q)) qs)).
Proof.
  destruct (@gaussian_partial_I_sign_only [1500%R] (-500) 1600 200)
    as (qs & H1 & H2 & _).
  - pose proof (@amplitude_denominator_pos 200). lra.
  - exists qs. split; assumption.
Defined.

Lemma direction_update_rows_witness :
  direction_update [finite_row 1 2 3] [Fin 2] [finite_row 1 0 0]
  = Ok (map2 (fun g bd => row_map2 fadd (row_map fneg g)
                            (row_map (fmul (fst bd)) (snd bd)))
             [finite_row 1 2 3] (combine [Fin 2] [finite_row 1 0 0])).
Proof.
  apply (@direction_update_rows [finite_row 1 2 3] [Fin 2] [finite_row 1 0 0]);
    reflexivity.
Defined.

(* ================================================================== *)
(** ** Binary64 arithmetic *)

Section binary64_arithmetic.

Import PrimFloat.
Import SpecFloat FloatOps FloatAxioms.

Lemma signbit_spec v : b64.signbit v = b64.SFsign (Prim2SF v).
Proof. reflexivity. Qed.

(** Rounding keeps the sign it is given. *)
Lemma round_aux_sign s m e l :
  b64.SFsign (binary_round_aux prec emax s m e l) = s
  \/ binary_round_aux prec emax s m e l = S754_nan.
Proof.
  unfold binary_round_aux.
  destruct (shr_fexp prec emax m e l) as [mrs' e'].
  destruct (shr_fexp prec emax _ e' loc_Exact) as [mrs'' e''].
  destruct (shr_m mrs'') as [ | p | p]; [left; reflexivity | | right; reflexivity].
  destruct (e'' <=? emax - prec)%Z; left; reflexivity.
Qed.

(** Rounding to nearest is symmetric about zero. *)
Lemma round_aux_opp s m e l :
  binary_round_aux prec emax (negb s) m e l
  = SFopp (binary_round_aux prec emax s m e l).
Proof.
  unfold binary_round_aux.
  destruct (shr_fexp prec emax m e l) as [mrs' e'].
  destruct (shr_fexp prec emax _ e' loc_Exact) as [mrs'' e''].
  destruct (shr_m mrs'') as [ | p | p]; try reflexivity.
  destruct (e'' <=? emax - prec)%Z; reflexivity.
Qed.








Lemma signbit_abs a : b64.signbit (abs a) = false.
Proof.
  rewrite signbit_spec, abs_spec. destruct (Prim2SF a); reflexivity.
Qed.

(** A product of a number with itself has no sign bit. *)
Lemma signbit_square a : b64.signbit (a * a) = false.
Proof.
  rewrite signbit_spec, mul_spec.
  destruct (Prim2SF a) as [s | s | | s m e];
    [destruct s; reflexivity | destruct s; reflexivity | reflexivity | ].
  unfold SF64mul, SFmul.
  replace (xorb s s) with false by (destruct s; reflexivity).
  match goal with |- context [binary_round_aux ?p ?q ?s ?m ?e ?l] =>
    destruct (round_aux_sign s m e l) as [H | H]; rewrite H; reflexivity end.
Qed.



(** The square of a number is the square of its opposite. *)
Lemma SFmul_opp_opp a : SF64mul (SFopp a) (SFopp a) = SF64mul a a.
Proof.
  destruct a as [s | s | | s m e]; try reflexivity; destruct s; reflexivity.
Qed.

Lemma float_mul_opp_opp a : (- a) * (- a) = a * a.
Proof.
  apply Prim2SF_inj. rewrite !mul_spec, !opp_spec. apply SFmul_opp_opp.
Qed.

(** Two numbers that compare equal are the same number, or two zeros. *)
Lemma SFeqb_true a b :
  SFeqb a b = true ->
  a = b \/ exists s s', a = S754_zero s /\ b = S754_zero s'.
Proof.
  unfold SFeqb.
  destruct a as [s | s | | s m e], b as [s' | s' | | s' m' e'];
    cbn [SFcompare]; intros H;
    try discriminate H;
    try (destruct s; discriminate H);
    try (destruct s'; discriminate H).
  - right. eauto.
  - left. destruct s, s'; try discriminate H; reflexivity.
  - left.
    assert (K : (e ?= e')%Z = Eq /\ Pos.compare_cont Eq m m' = Eq /\ s = s').
    { destruct s, s'; try discriminate H;
        destruct (Z.compare e e'); try discriminate H;
        destruct (Pos.compare_cont Eq m m'); try discriminate H;
        repeat split. }
    destruct K as (E & M & ->).
    apply Z.compare_eq in E. apply Pos.compare_eq in M. congruence.
Qed.

(** Opposite numbers have one square. *)
Lemma float_square_opposite a b : (a =? - b) = true -> a * a = b * b.
Proof.
  rewrite eqb_spec, opp_spec. intros H.
  apply Prim2SF_inj. rewrite !mul_spec.
  destruct (SFeqb_true _ _ H) as [-> | (s & s' & -> & E)].
  - apply SFmul_opp_opp.
  - destruct (Prim2SF b) as [t | t | | t m e]; try discriminate E.
    destruct s, t; reflexivity.
Qed.

(** Products and quotients change sign with either operand. *)
Lemma SFmul_opp_r a b : SF64mul a (SFopp b) = SFopp (SF64mul a b).
Proof.
  destruct a as [s | s | | s m e], b as [s' | s' | | s' m' e'];
    try reflexivity;
    try (destruct s, s'; reflexivity).
  unfold SF64mul, SFmul, SFopp.
  replace (xorb s (negb s')) with (negb (xorb s s'))
    by (destruct s, s'; reflexivity).
  apply round_aux_opp.
Qed.

Lemma SFmul_opp_l a b : SF64mul (SFopp a) b = SFopp (SF64mul a b).
Proof.
  destruct a as [s | s | | s m e], b as [s' | s' | | s' m' e'];
    try reflexivity;
    try (destruct s, s'; reflexivity).
  unfold SF64mul, SFmul, SFopp.
  replace (xorb (negb s) s') with (negb (xorb s s'))
    by (destruct s, s'; reflexivity).
  apply round_aux_opp.
Qed.

Lemma SFdiv_opp_l a b : SF64div (SFopp a) b = SFopp (SF64div a b).
Proof.
  destruct a as [s | s | | s m e], b as [s' | s' | | s' m' e'];
    try reflexivity;
    try (destruct s, s'; reflexivity).
  unfold SF64div, SFdiv, SFopp.
  destruct (SFdiv_core_binary _ _ _ _ _ _) as [[mz ez] lz].
  replace (xorb (negb s) s') with (negb (xorb s s'))
    by (destruct s, s'; reflexivity).
  apply round_aux_opp.
Qed.

Lemma float_mul_opp_r a b : a * (- b) = - (a * b).
Proof.
  apply Prim2SF_inj. rewrite opp_spec, !mul_spec, opp_spec.
  apply SFmul_opp_r.
Qed.

Lemma float_mul_opp_l a b : (- a) * b = - (a * b).
Proof.
  apply Prim2SF_inj. rewrite opp_spec, !mul_spec, opp_spec.
  apply SFmul_opp_l.
Qed.

Lemma float_div_opp_l a b : (- a) / b = - (a / b).
Proof.
  apply Prim2SF_inj. rewrite opp_spec, !div_spec, opp_spec.
  apply SFdiv_opp_l.
Qed.

(** Multiplying by one changes nothing: the product is exact and the number
    is already rounded. *)
Lemma digits2_shift m :
  Z.pos (digits2_pos (4503599627370496 * m)) = (Z.pos (digits2_pos m) + 52)%Z.
Proof.
  change (4503599627370496 * m)%positive with (Pos.iter xO m 52).
  cbn [Pos.iter]. cbn [digits2_pos]. lia.
Qed.

Lemma SFmul_1_l x :
  valid_binary x = true ->
  SF64mul (S754_finite false 4503599627370496 (-52)) x = x.
Proof.
  intros V. destruct x as [s | s | | s m e]; try reflexivity.
  unfold SF64mul, SFmul. cbn [xorb].
  cbn [SpecFloat.valid_binary] in V. unfold bounded, canonical_mantissa in V.
  apply andb_prop in V. destruct V as [V1 V2].
  apply Z.eqb_eq in V1.
  unfold binary_round_aux, shr_fexp. cbn [Zdigits2].
  rewrite digits2_shift.
  replace (Z.pos (digits2_pos m) + 52 + (-52 + e))%Z
    with (Z.pos (digits2_pos m) + e)%Z by lia.
  rewrite V1.
  replace (e - (-52 + e))%Z with 52%Z by lia.
  cbn [shr_record_of_loc shr].
  change (4503599627370496 * m)%positive with (Pos.iter xO m 52).
  assert (E : iter_pos shr_1 52
             {| shr_m := Z.pos (Pos.iter xO m 52);
                shr_r := false; shr_s := false |}
           = {| shr_m := Z.pos m; shr_r := false; shr_s := false |})
    by reflexivity.
  rewrite E. cbn [shr_m loc_of_shr_record round_nearest_even Zdigits2].
  replace (-52 + e + 52)%Z with e by lia.
  rewrite V1, Z.sub_diag. cbn [shr shr_m]. rewrite V2. reflexivity.
Qed.

Lemma float_mul_1_l x : 1 * x = x.
Proof.
  apply Prim2SF_inj. rewrite mul_spec.
  change (Prim2SF 1) with (S754_finite false 4503599627370496 (-52)).
  apply SFmul_1_l. apply Prim2SF_valid.
Qed.

Lemma SFmul_comm a b : SF64mul a b = SF64mul b a.
Proof.
  destruct a as [s | s | | s m e], b as [s' | s' | | s' m' e'];
    try reflexivity;
    try (destruct s, s'; reflexivity).
  unfold SF64mul, SFmul.
  rewrite xorb_comm, Pos.mul_comm, Z.add_comm. reflexivity.
Qed.

Lemma float_mul_comm a b : a * b = b * a.
Proof. apply Prim2SF_inj. rewrite !mul_spec. apply SFmul_comm. Qed.

Lemma float_mul_1_r x : x * 1 = x.
Proof. rewrite float_mul_comm. apply float_mul_1_l. Qed.

(** [-0] over a positive number is [-0]. *)
Lemma float_neg_zero_div q : (0 <? q) = true -> neg_zero / q = neg_zero.
Proof.
  rewrite ltb_spec. intros P. apply Prim2SF_inj. rewrite div_spec.
  change (Prim2SF 0) with (S754_zero false) in *.
  change (Prim2SF neg_zero) with (S754_zero true).
  destruct (Prim2SF q) as [s | [ | ] | | [ | ] m x]; try discriminate;
    reflexivity.
Qed.



(** A finite number minus itself is [+0], and [+0] over a positive step is
    [+0]. *)
Lemma float_sub_diag a : is_finite a = true -> a - a = 0.
Proof.
  unfold is_finite, is_nan, is_infinity.
  rewrite !eqb_spec, abs_spec. intros F.
  apply Prim2SF_inj. rewrite sub_spec.
  change (Prim2SF infinity) with (S754_infinity false) in *.
  change (Prim2SF 0) with (S754_zero false).
  destruct (Prim2SF a) as [s | s | | s m e].
  - destruct s; reflexivity.
  - destruct s; discriminate F.
  - discriminate F.
  - unfold SF64sub, SFsub. cbv zeta. rewrite Z.sub_diag. reflexivity.
Qed.


(** A number over itself is 1, unless it is zero, infinite or [nan]. *)
Lemma new_location_exact n : new_location n 0 = loc_Exact.
Proof.
  unfold new_location, new_location_even, new_location_odd.
  destruct (Z.even n); reflexivity.
Qed.

Lemma SFdiv_self s m e :
  SF64div (S754_finite s m e) (S754_finite s m e)
  = S754_finite false 4503599627370496 (-52).
Proof.
  unfold SF64div, SFdiv, SFdiv_core_binary.
  rewrite !Z.sub_diag.
  change (Z.min (fexp prec emax 0) 0) with (-53)%Z.
  change (0 - -53)%Z with 53%Z.
  cbv iota beta.
  rewrite Z.shiftl_mul_pow2 by lia.
  assert (Q : Z.div_eucl (Z.pos m * 2 ^ 53) (Z.pos m)
              = (2 ^ 53, 0)%Z).
  { pose proof (Z.div_mul (2 ^ 53) (Z.pos m) ltac:(lia)) as Hq.
    pose proof (Z.mod_mul (2 ^ 53) (Z.pos m) ltac:(lia)) as Hr.
    rewrite (Z.mul_comm (2 ^ 53)) in Hq, Hr.
    unfold Z.div, Z.modulo in Hq, Hr.
    destruct (Z.div_eucl (Z.pos m * 2 ^ 53) (Z.pos m)) as [q r].
    cbn [fst snd] in Hq, Hr. subst. reflexivity. }
  rewrite Q. rewrite new_location_exact.
  destruct s; reflexivity.
Qed.

Lemma float_div_self x :
  x / x = if is_finite x && negb (x =? 0) then 1 else nan.
Proof.
  apply Prim2SF_inj.
  unfold is_finite, is_nan, is_infinity.
  rewrite div_spec, !eqb_spec, abs_spec.
  change (Prim2SF infinity) with (S754_infinity false).
  change (Prim2SF 0) with (S754_zero false).
  destruct (Prim2SF x) as [s | s | | s m e] eqn:E.
  - destruct s; reflexivity.
  - destruct s; reflexivity.
  - reflexivity.
  - rewrite SFdiv_self.
    assert (R : SFeqb (S754_finite s m e) (S754_finite s m e) = true).
    { unfold SFeqb. cbn [SFcompare].
      rewrite Z.compare_refl, Pos.compare_cont_refl.
      destruct s; reflexivity. }
    rewrite R. destruct s; reflexivity.
Qed.

(** A quotient by zero is not finite. *)
Lemma float_div_zero_not_finite a b :
  (b =? 0) = true -> is_finite (a / b) = false.
Proof.
  unfold is_finite, is_nan, is_infinity.
  rewrite !eqb_spec, abs_spec, div_spec. 
  change (Prim2SF infinity) with (S754_infinity false) in *.
  change (Prim2SF 0) with (S754_zero false).
  intros E.
  destruct (Prim2SF b) as [s | s | | s m e];
    [ | destruct s; discriminate E | discriminate E
      | destruct s; discriminate E ].
  destruct (Prim2SF a) as [s' | s' | | s' m' e'];
    try reflexivity; destruct s, s'; reflexivity.
Qed.

End binary64_arithmetic.

(* ================================================================== *)
(** ** The binary64 cells, sample by sample *)

Lemma binop64_scalars f a b :
  b64.nd_binop f (b64.Scalar a) (b64.Scalar b) = Ok (b64.Scalar (f a b)).
Proof. reflexivity. Qed.

Lemma binop64_array_scalar f x a :
  b64.nd_binop f (b64.Array x) (b64.Scalar a)
  = Ok (b64.Array (map (fun xj => f xj a) x)).
Proof.
  unfold b64.nd_binop. simpl b64.items. rewrite broadcast2_one_r. reflexivity.
Qed.

Lemma binop64_scalar_array f a x :
  b64.nd_binop f (b64.Scalar a) (b64.Array x) = Ok (b64.Array (map (f a) x)).
Proof.
  unfold b64.nd_binop. simpl b64.items. rewrite broadcast2_one_l. reflexivity.
Qed.

Lemma binop64_arrays f x y :
  length x = length y ->
  b64.nd_binop f (b64.Array x) (b64.Array y) = Ok (b64.Array (map2 f x y)).
Proof.
  intros H. unfold b64.nd_binop. simpl b64.items.
  rewrite broadcast2_same_length by assumption. reflexivity.
Qed.

Lemma concatenate_columns64 a b c :
  length b = length a -> length c = length a ->
  b64.concatenate_columns (b64.Array a) (b64.Array b) (b64.Array c)
  = Ok (map2 (fun p z => b64.Row (fst p) (snd p) z) (combine a b) c).
Proof.
  intros Hb Hc. unfold b64.concatenate_columns.
  rewrite Hb, Hc, !Nat.eqb_refl. reflexivity.
Qed.

Lemma columns_of_rows64 {A : Type} (f g h : A -> PrimFloat.float) (l : list A) :
  map2 (fun p z => b64.Row (fst p) (snd p) z)
       (combine (map f l) (map g l)) (map h l)
  = map (fun a => b64.Row (f a) (g a) (h a)) l.
Proof.
  induction l as [ | a l IH]; [reflexivity | ].
  simpl map. simpl combine. rewrite map2_cons, IH. reflexivity.
Qed.

(** One operator of a binary64 array expression, on operands of known
    shape. *)
Ltac step64 :=
  first [ rewrite binop64_scalars
        | rewrite binop64_array_scalar
        | rewrite binop64_scalar_array
        | rewrite binop64_arrays by nd_length ].

Ltac eval64 :=
  unfold b64.np.exp, b64.np.abs, b64.np.sign, b64.np.sqrt, b64.np.divide,
    b64.np.transpose, b64.np.pi, b64.ufunc1, b64.ufunc2, b64.power_expr,
    b64.lit, b64.ret_nd;
  cbn [bind b64.nd_map b64.nd_pow Z.eqb Pos.eqb];
  repeat (step64; cbn [bind b64.nd_map b64.nd_pow Z.eqb Pos.eqb]).

Section binary64_cells.

Import PrimFloat.

Variable L : b64.libm.

Lemma gaussian64_array_scalars x I mu sigma :
  b64.gaussian L (b64.Array x) (b64.Scalar I) (b64.Scalar mu) (b64.Scalar sigma)
  = Ok (b64.Array (map (fun xj => b64.gaussian_at L xj I mu sigma) x)).
Proof.
  unfold b64.gaussian. eval64. rewrite !map_map. reflexivity.
Qed.

Lemma partial_I64_array_scalars x I mu sigma :
  b64.gaussian_partial_I L (b64.Array x) (b64.Scalar I) (b64.Scalar mu)
    (b64.Scalar sigma)
  = Ok (b64.Array
          (map (fun xj => b64.col0 (b64.gradient_row L xj I mu sigma)) x)).
Proof.
  unfold b64.gaussian_partial_I. eval64. rewrite !map_map. reflexivity.
Qed.

Lemma partial_mu64_array_scalars x I mu sigma :
  b64.gaussian_partial_mu L (b64.Array x) (b64.Scalar I) (b64.Scalar mu)
    (b64.Scalar sigma)
  = Ok (b64.Array
          (map (fun xj => b64.col1 (b64.gradient_row L xj I mu sigma)) x)).
Proof.
  unfold b64.gaussian_partial_mu. eval64.
  rewrite !map_map, map2_diag. reflexivity.
Qed.

Lemma partial_sigma64_array_scalars x I mu sigma :
  b64.gaussian_partial_sigma L (b64.Array x) (b64.Scalar I) (b64.Scalar mu)
    (b64.Scalar sigma)
  = Ok (b64.Array
          (map (fun xj => b64.col2 (b64.gradient_row L xj I mu sigma)) x)).
Proof.
  unfold b64.gaussian_partial_sigma. eval64.
  rewrite !map_map, map2_diag. reflexivity.
Qed.

Lemma partial_I64_arrays x a b c :
  length a = length x -> length b = length x -> length c = length x ->
  b64.gaussian_partial_I L (b64.Array x) (b64.Array a) (b64.Array b)
    (b64.Array c)
  = Ok (b64.Array
          (map (fun q => b64.col0 (b64.gradient_row_arrays L
                             (fst (fst (fst q))) (snd (fst (fst q)))
                             (snd (fst q)) (snd q)))
               (combine (combine (combine x a) b) c))).
Proof.
  intros Ha Hb Hc. unfold b64.gaussian_partial_I. eval64.
  do 2 f_equal. rewrite !map_map.
  pointwise4 x a b c.
Qed.

Lemma partial_mu64_arrays x a b c :
  length a = length x -> length b = length x -> length c = length x ->
  b64.gaussian_partial_mu L (b64.Array x) (b64.Array a) (b64.Array b)
    (b64.Array c)
  = Ok (b64.Array
          (map (fun q => b64.col1 (b64.gradient_row_arrays L
                             (fst (fst (fst q))) (snd (fst (fst q)))
                             (snd (fst q)) (snd q)))
               (combine (combine (combine x a) b) c))).
Proof.
  intros Ha Hb Hc. unfold b64.gaussian_partial_mu. eval64.
  do 2 f_equal. rewrite !map_map.
  pointwise4 x a b c.
Qed.

Lemma partial_sigma64_arrays x a b c :
  length a = length x -> length b = length x -> length c = length x ->
  b64.gaussian_partial_sigma L (b64.Array x) (b64.Array a) (b64.Array b)
    (b64.Array c)
  = Ok (b64.Array
          (map (fun q => b64.col2 (b64.gradient_row_arrays L
                             (fst (fst (fst q))) (snd (fst (fst q)))
                             (snd (fst q)) (snd q)))
               (combine (combine (combine x a) b) c))).
Proof.
  intros Ha Hb Hc. unfold b64.gaussian_partial_sigma. eval64.
  do 2 f_equal. rewrite !map_map.
  pointwise4 x a b c.
Qed.

Lemma gradient64_base x I mu sigma :
  b64.gaussian_gradient L x I mu sigma None
  = Ok (map (fun xj => b64.gradient_row L xj I mu sigma) x).
Proof.
  unfold b64.gaussian_gradient.
  rewrite partial_I64_array_scalars, partial_mu64_array_scalars,
    partial_sigma64_array_scalars.
  cbn [bind].
  rewrite concatenate_columns64 by (rewrite !length_map; reflexivity).
  rewrite columns_of_rows64. reflexivity.
Qed.

Lemma zip_perturbed64 x I mu sigma (d : b64.block) :
  length d = length x ->
  combine
    (combine
       (combine x (map2 add (map (fun o => o * I) (b64.ones_like x))
                            (map b64.col0 d)))
       (map2 add (map (fun o => o * mu) (b64.ones_like x)) (map b64.col1 d)))
    (map2 add (map (fun o => o * sigma) (b64.ones_like x)) (map b64.col2 d))
  = map2 (fun xj dj =>
            (xj, I + b64.col0 dj, mu + b64.col1 dj, sigma + b64.col2 dj)) x d.
Proof.
  revert d. induction x as [ | xj x IH]; intros [ | dj d] H;
    try discriminate; [reflexivity | ].
  simpl in H. injection H as H.
  unfold b64.ones_like in *. cbn [map]. rewrite !map2_cons. cbn [combine].
  rewrite IH by assumption. rewrite !float_mul_1_l. reflexivity.
Qed.

Lemma gradient64_perturbed x I mu sigma (d : b64.block) :
  length d = length x ->
  b64.gaussian_gradient L x I mu sigma (Some d)
  = Ok (map2 (fun xj dj =>
                b64.gradient_row_arrays L xj (I + b64.col0 dj)
                  (mu + b64.col1 dj) (sigma + b64.col2 dj))
             x d).
Proof.
  intros H. unfold b64.gaussian_gradient, b64.call4.
  assert (Lo : forall v,
             length (map (fun o => o * v) (b64.ones_like x)) = length x)
    by (intros v; unfold b64.ones_like; rewrite !length_map; reflexivity).
  assert (Ld : forall c : b64.row -> float, length (map c d) = length x)
    by (intros c; rewrite length_map; assumption).
  assert (Lp : forall v (c : b64.row -> float),
             length (map2 add (map (fun o => o * v) (b64.ones_like x))
                              (map c d))
             = length x)
    by (intros v c; rewrite length_map2_min, Lo, Ld; lia).
  unfold b64.ufunc2, b64.ret_nd. cbn [bind].
  rewrite !binop64_array_scalar. cbn [bind].
  rewrite !binop64_arrays by (rewrite Lo, Ld; reflexivity).
  cbn [bind].
  rewrite partial_I64_arrays, partial_mu64_arrays, partial_sigma64_arrays
    by apply Lp.
  cbn [bind].
  rewrite zip_perturbed64 by assumption.
  rewrite concatenate_columns64 by (rewrite !length_map; reflexivity).
  rewrite columns_of_rows64. unfold map2 at 1. rewrite map_map. reflexivity.
Qed.

Lemma hessian64_rows x I mu sigma (d : b64.block) epsilon :
  length d = length x ->
  b64.hessian_product L x I mu sigma d epsilon
  = Ok (map2 (fun xj dj =>
                b64.row_map (fun v => v / epsilon)
                  (b64.row_map2 sub
                     (b64.gradient_row_arrays L xj
                        (I + epsilon * b64.col0 dj)
                        (mu + epsilon * b64.col1 dj)
                        (sigma + epsilon * b64.col2 dj))
                     (b64.gradient_row L xj I mu sigma)))
             x d).
Proof.
  intros H. unfold b64.hessian_product.
  rewrite gradient64_perturbed by (rewrite length_map; assumption).
  rewrite (map2_map_r (b64.row_map (mul epsilon))).
  rewrite gradient64_base. cbn [bind].
  rewrite broadcast2_same_length
    by (rewrite length_map2, length_map; congruence).
  cbn [bind]. rewrite map_map2. f_equal.
  clear H. revert d. induction x as [ | xj x IH]; intros [ | dj d];
    try reflexivity.
  cbn [map]. rewrite !map2_cons. f_equal. apply IH.
Qed.

End binary64_cells.

(* ================================================================== *)
(** ** The reference library *)

Section binary64_reference.

Import PrimFloat.

Lemma iter_op_idempotent (op : float -> float -> float) a p :
  op a a = a -> Pos.iter_op op p a = a.
Proof.
  intros H. induction p as [p IH | p IH | ]; cbn [Pos.iter_op];
    rewrite ?H, ?IH, ?H; reflexivity.
Qed.

Lemma reference_lawful : b64.lawful b64.reference.
Proof.
  constructor; cbn [b64.exp b64.pow b64.power b64.reference].
  - reflexivity.
  - reflexivity.
  - reflexivity.
  - reflexivity.
  - intros x. apply signbit_abs.
  - intros [ | p | p]; cbn [b64.pow_reference];
      rewrite ?iter_op_idempotent; reflexivity.
  - intros [ | p | p] H; try discriminate H. cbn [b64.pow_reference].
    apply iter_op_idempotent. reflexivity.
  - intros x. apply signbit_square.
  - intros [ | p | p]; cbn [b64.pow_reference];
      rewrite ?iter_op_idempotent; reflexivity.
  - intros [ | p | p] H; try discriminate H. cbn [b64.pow_reference].
    apply iter_op_idempotent. reflexivity.
Qed.

End binary64_reference.

(* ================================================================== *)
(** ** Symmetry, sign and the zero direction in binary64 *)

(** The laws of a library on the numbers themselves, and its three
    functions as unknowns, so that what is left of an expression can be
    evaluated. *)
Ltac abstract_libm L HL :=
  pose proof (b64.exp_nan HL) as Enan;
  pose proof (b64.exp_zero HL) as Ezero;
  pose proof (b64.exp_neg_zero HL) as Enzero;
  pose proof (b64.exp_neg_infinity HL) as Eninf;
  pose proof (b64.exp_signbit HL) as Esign;
  pose proof (b64.pow_one HL) as Pone;
  pose proof (b64.pow_zero HL) as Pzero;
  pose proof (b64.pow_square_signbit HL) as Psign;
  pose proof (b64.power_one HL) as Wone;
  pose proof (b64.power_zero HL) as Wzero;
  unfold PrimFloat.nan, PrimFloat.neg_zero, PrimFloat.neg_infinity in *;
  clear HL;
  generalize dependent (b64.exp L); intros libm_exp; intros;
  generalize dependent (b64.pow L); intros libm_pow; intros;
  generalize dependent (b64.power L); intros libm_power; intros.

Section binary64_claims.

Import PrimFloat.

Lemma gaussian_at_opposite_offsets (L : b64.libm) x1 x2 I mu sigma :
  (x1 - mu =? - (x2 - mu)) = true ->
  b64.gaussian_at L x1 I mu sigma = b64.gaussian_at L x2 I mu sigma.
Proof.
  intros H. unfold b64.gaussian_at, b64.exponential_at.
  rewrite (@float_square_opposite _ _ H). reflexivity.
Qed.

(** C7, as the code has it.  For every width, every amplitude and every
    offset d whose two mirror samples are at opposite computed distances
    from the centre, (mu + d) - mu == -((mu - d) - mu) in binary64, the
    Gaussian takes the same value at mu + d and at mu - d, whatever the
    library's exponential is. *)
Theorem gaussian_symmetric_about_mu
    (L : b64.libm) (I mu sigma : float) (ds : list float) :
  Forall (fun d => ((mu + d) - mu =? - ((mu - d) - mu)) = true) ds ->
  b64.gaussian L (b64.Array (map (fun d => mu + d) ds))
    (b64.Scalar I) (b64.Scalar mu) (b64.Scalar sigma)
  = b64.gaussian L (b64.Array (map (fun d => mu - d) ds))
      (b64.Scalar I) (b64.Scalar mu) (b64.Scalar sigma).
Proof.
  intros H. rewrite !gaussian64_array_scalars, !map_map. do 2 f_equal.
  induction H as [ | d ds Hd _ IH]; [reflexivity | ].
  cbn [map]. f_equal; [ | exact IH].
  apply gaussian_at_opposite_offsets. exact Hd.
Qed.

Lemma gaussian_symmetric_about_mu_witness :
  Forall (fun d => ((1600 + d) - 1600 =? - ((1600 - d) - 1600)) = true)
    [0; 50; 0.25]
  /\ b64.gaussian b64.reference
       (b64.Array (map (fun d => 1600 + d) [0; 50; 0.25]))
       (b64.Scalar 500) (b64.Scalar 1600) (b64.Scalar 200)
     = b64.gaussian b64.reference
         (b64.Array (map (fun d => 1600 - d) [0; 50; 0.25]))
         (b64.Scalar 500) (b64.Scalar 1600) (b64.Scalar 200).
Proof.
  assert (H : Forall
                (fun d => ((1600 + d) - 1600 =? - ((1600 - d) - 1600)) = true)
                [0; 50; 0.25])
    by (repeat constructor).
  split; [exact H | ].
  exact (@gaussian_symmetric_about_mu b64.reference 500 1600 200
           [0; 50; 0.25] H).
Defined.

(** The sums 0.1 + 0.3 and 0.1 - 0.3 are rounded: the two samples are not at
    opposite distances from the centre 0.1. *)
Lemma rounded_offsets_example :
  (0.1 + 0.3) - 0.1 = 0.30000000000000004
  /\ (0.1 - 0.3) - 0.1 = -0.3.
Proof. split; reflexivity. Qed.

(** Next to a power of two the doubles are twice as dense below as above:
    2^600 + 1.5 * 2^546 is rounded to 2^600 and 2^600 - 1.5 * 2^546 to the
    double below it, 2^547 away, whose squared distance overflows.  Whatever
    the library, the first sample gets the peak value and the second 0. *)
Lemma gaussian_asymmetric_every_libm (L : b64.libm) :
  b64.lawful L ->
  b64.gaussian L (b64.Array [0x1p600 + 0x1.8p546; 0x1p600 - 0x1.8p546])
    (b64.Scalar 1) (b64.Scalar 0x1p600) (b64.Scalar 1)
  = Ok (b64.Array [0.39894228039984114; 0]).
Proof.
  intros HL. rewrite gaussian64_array_scalars. cbn [map].
  unfold b64.gaussian_at, b64.exponential_at.
  abstract_libm L HL.
  rewrite !Pone. vm_compute.
  rewrite Enzero, Eninf. reflexivity.
Qed.

(** C7 as stated fails.  With the reference library, at mu = 0.1, d = 0.3,
    sigma = 0.5 and I = 1 the values at mu + d and at mu - d differ in the
    last place.  With every library, at mu = 2^600, d = 1.5 * 2^546,
    sigma = 1 and I = 1 the value at mu + d is 0.3989... and the value at
    mu - d is 0. *)
Lemma gaussian_symmetric_about_mu_counterexample :
  b64.gaussian b64.reference (b64.Array [0.1 + 0.3; 0.1 - 0.3])
    (b64.Scalar 1) (b64.Scalar 0.1) (b64.Scalar 0.5)
  = Ok (b64.Array [0.666449205780681; 0.6664492057806811])
  /\ (forall L : b64.libm, b64.lawful L ->
        b64.gaussian L (b64.Array [0x1p600 + 0x1.8p546; 0x1p600 - 0x1.8p546])
          (b64.Scalar 1) (b64.Scalar 0x1p600) (b64.Scalar 1)
        = Ok (b64.Array [0.39894228039984114; 0])).
Proof.
  split.
  - vm_compute. reflexivity.
  - exact gaussian_asymmetric_every_libm.
Qed.















End binary64_claims.

(* ================================================================== *)
(** ** Further properties in binary64 *)

Section binary64_further.

Import PrimFloat.

(** X26.  In binary64 the cell [gaussian], on a sample array and scalar
    parameters, computes at each sample
    abs(I) / (sqrt(2 pi) * sigma + 1e-11)
    * exp(-((x - mu) * (x - mu)) / (2 * pow(sigma, 2) + 1e-11)):
    the square of the distance is a product, being taken on an array, and
    the square of the width is the C library's, being taken on a scalar. *)
Theorem gaussian_binary64_formula
    (L : b64.libm) (xs : list float) (I mu sigma : float) :
  b64.gaussian L (b64.Array xs) (b64.Scalar I) (b64.Scalar mu)
    (b64.Scalar sigma)
  = Ok (b64.Array
          (map (fun x =>
                  abs I / (sqrt (2 * 0x1.921fb54442d18p+1) * sigma + 1e-11)
                  * b64.exp L (- ((x - mu) * (x - mu))
                               / (2 * b64.pow L sigma 2 + 1e-11)))
               xs)).
Proof.
  unfold b64.gaussian. eval64. rewrite !map_map.
  do 2 f_equal.
Qed.

(** X27.  In binary64 the two gradients that [hessian_product] subtracts are
    not computed alike: for a direction block of as many rows as samples,
    the perturbed gradient squares the width by a product and cubes it by
    np.power, the base gradient takes both powers from pow; row by row the
    result is their difference over epsilon. *)
Theorem hessian_product_binary64_rows
    (L : b64.libm) (xs : list float) (I mu sigma : float)
    (d : b64.block) (epsilon : float) :
  length d = length xs ->
  b64.hessian_product L xs I mu sigma d epsilon
  = Ok (map2 (fun x dj =>
                let I' := I + epsilon * b64.col0 dj in
                let mu' := mu + epsilon * b64.col1 dj in
                let sigma' := sigma + epsilon * b64.col2 dj in
                b64.row_map (fun v => v / epsilon)
                  (b64.row_map2 sub
                     (b64.gradient_row_with L (sigma' * sigma')
                        (b64.power L sigma' 3) x I' mu' sigma')
                     (b64.gradient_row_with L (b64.pow L sigma 2)
                        (b64.pow L sigma 3) x I mu sigma)))
             xs d).
Proof.
  intros H. unfold b64.hessian_product.
  rewrite gradient64_perturbed by (rewrite length_map; assumption).
  rewrite (map2_map_r (b64.row_map (mul epsilon))).
  rewrite gradient64_base. cbn [bind].
  rewrite broadcast2_same_length
    by (rewrite length_map2, length_map; congruence).
  cbn [bind]. rewrite map_map2. f_equal.
  clear H. revert d. induction xs as [ | x xs IH]; intros [ | dj d];
    try reflexivity.
  cbn [map]. rewrite !map2_cons. f_equal. apply IH.
Qed.

Lemma hessian_product_binary64_rows_witness :
  length [b64.Row 1 0 0; b64.Row 0 0 1] = length [1500; 1600]
  /\ exists hv : b64.block,
       b64.hessian_product b64.reference [1500; 1600] 500 1600 200
         [b64.Row 1 0 0; b64.Row 0 0 1] 1e-5 = Ok hv.
Proof.
  split; [reflexivity | ].
  eexists.
  exact (@hessian_product_binary64_rows b64.reference [1500; 1600]
           500 1600 200 [b64.Row 1 0 0; b64.Row 0 0 1] 1e-5 eq_refl).
Defined.

(** X7.  In binary64 the value of the cell [gaussian] at a sample equal to
    the (finite) centre is exactly its amplitude
    abs(I) / (sqrt(2 pi) * sigma + 1e-11), whatever the library, as soon as
    the denominator of the exponent, 2 * pow(sigma, 2) + 1e-11, is positive:
    the distance is 0, the exponent -0 and its exponential 1. *)
Theorem gaussian_value_at_centre (L : b64.libm) (I mu sigma : float) :
  b64.lawful L -> is_finite mu = true ->
  (0 <? 2 * b64.pow L sigma 2 + 1e-11) = true ->
  b64.gaussian L (b64.Array [mu]) (b64.Scalar I) (b64.Scalar mu)
    (b64.Scalar sigma)
  = Ok (b64.Array
          [abs I / (sqrt (2 * 0x1.921fb54442d18p+1) * sigma + 1e-11)]).
Proof.
  intros HL Hm Hq. rewrite gaussian64_array_scalars. cbn [map].
  unfold b64.gaussian_at, b64.exponential_at.
  rewrite (@float_sub_diag mu Hm).
  change (- (0 * 0)) with neg_zero.
  rewrite (@float_neg_zero_div _ Hq), (b64.exp_neg_zero HL), float_mul_1_r.
  reflexivity.
Qed.

Lemma gaussian_value_at_centre_witness :
  is_finite 1600 = true
  /\ (0 <? 2 * b64.pow b64.reference 200 2 + 1e-11) = true
  /\ b64.gaussian b64.reference (b64.Array [1600]) (b64.Scalar (-500))
       (b64.Scalar 1600) (b64.Scalar 200)
     = Ok (b64.Array
             [abs (-500) / (sqrt (2 * 0x1.921fb54442d18p+1) * 200 + 1e-11)]).
Proof.
  split; [reflexivity | split; [reflexivity | ]].
  exact (@gaussian_value_at_centre b64.reference (-500) 1600 200
           reference_lawful eq_refl eq_refl).
Defined.

(** X10.  In binary64 the cell [gaussian_partial_mu] is odd in the computed
    distance: for every offset d with (mu + d) - mu = -((mu - d) - mu), its
    value at mu + d is the opposite of its value at mu - d, sample by
    sample, whatever the library. *)
Theorem gaussian_partial_mu_odd_about_centre
    (L : b64.libm) (I mu sigma : float) (ds : list float) :
  Forall (fun d => (mu + d) - mu = - ((mu - d) - mu)) ds ->
  exists ys : list float,
    b64.gaussian_partial_mu L (b64.Array (map (fun d => mu - d) ds))
      (b64.Scalar I) (b64.Scalar mu) (b64.Scalar sigma)
    = Ok (b64.Array ys)
    /\ b64.gaussian_partial_mu L (b64.Array (map (fun d => mu + d) ds))
         (b64.Scalar I) (b64.Scalar mu) (b64.Scalar sigma)
       = Ok (b64.Array (map opp ys)).
Proof.
  intros H.
  exists (map (fun d => b64.col1 (b64.gradient_row L (mu - d) I mu sigma)) ds).
  rewrite !partial_mu64_array_scalars, !map_map.
  split; [reflexivity | ]. do 2 f_equal.
  induction H as [ | d ds Hd _ IH]; [reflexivity | ].
  cbn [map]. f_equal; [ | exact IH].
  unfold b64.gradient_row, b64.gradient_row_with, b64.exponential_at.
  cbn [b64.col1]. rewrite Hd, float_mul_opp_opp.
  rewrite float_mul_opp_r, float_div_opp_l, float_mul_opp_l. reflexivity.
Qed.

Lemma gaussian_partial_mu_odd_about_centre_witness :
  Forall (fun d => (1600 + d) - 1600 = - ((1600 - d) - 1600)) [50; 0.25]
  /\ exists ys : list float,
       b64.gaussian_partial_mu b64.reference
         (b64.Array (map (fun d => 1600 - d) [50; 0.25]))
         (b64.Scalar 500) (b64.Scalar 1600) (b64.Scalar 200)
       = Ok (b64.Array ys)
       /\ b64.gaussian_partial_mu b64.reference
            (b64.Array (map (fun d => 1600 + d) [50; 0.25]))
            (b64.Scalar 500) (b64.Scalar 1600) (b64.Scalar 200)
          = Ok (b64.Array (map opp ys)).
Proof.
  assert (H : Forall (fun d => (1600 + d) - 1600 = - ((1600 - d) - 1600))
                [50; 0.25])
    by (repeat constructor).
  split; [exact H | ].
  exact (@gaussian_partial_mu_odd_about_centre b64.reference 500 1600 200
           [50; 0.25] H).
Defined.

(** X22.  In binary64 the cells [gaussian_partial_I] and
    [gaussian_partial_sigma] are even in the computed distance: for every
    offset d with (mu + d) - mu == -((mu - d) - mu), each has the same value
    at mu + d and at mu - d, sample by sample, whatever the library. *)
Theorem partials_even_about_centre
    (L : b64.libm) (I mu sigma : float) (ds : list float) :
  Forall (fun d => ((mu + d) - mu =? - ((mu - d) - mu)) = true) ds ->
  b64.gaussian_partial_I L (b64.Array (map (fun d => mu + d) ds))
    (b64.Scalar I) (b64.Scalar mu) (b64.Scalar sigma)
  = b64.gaussian_partial_I L (b64.Array (map (fun d => mu - d) ds))
      (b64.Scalar I) (b64.Scalar mu) (b64.Scalar sigma)
  /\ b64.gaussian_partial_sigma L (b64.Array (map (fun d => mu + d) ds))
       (b64.Scalar I) (b64.Scalar mu) (b64.Scalar sigma)
     = b64.gaussian_partial_sigma L (b64.Array (map (fun d => mu - d) ds))
         (b64.Scalar I) (b64.Scalar mu) (b64.Scalar sigma).
Proof.
  intros H.
  rewrite !partial_I64_array_scalars, !partial_sigma64_array_scalars,
    !map_map.
  split; do 2 f_equal.
  - induction H as [ | d ds Hd _ IH]; [reflexivity | ].
    cbn [map]. f_equal; [ | exact IH].
    unfold b64.gradient_row, b64.gradient_row_with, b64.exponential_at.
    cbn [b64.col0]. rewrite (@float_square_opposite _ _ Hd). reflexivity.
  - induction H as [ | d ds Hd _ IH]; [reflexivity | ].
    cbn [map]. f_equal; [ | exact IH].
    unfold b64.gradient_row, b64.gradient_row_with, b64.exponential_at.
    cbn [b64.col2]. rewrite (@float_square_opposite _ _ Hd). reflexivity.
Qed.

Lemma partials_even_about_centre_witness :
  Forall (fun d => ((1600 + d) - 1600 =? - ((1600 - d) - 1600)) = true)
    [0; 50; 0.25]
  /\ b64.gaussian_partial_I b64.reference
       (b64.Array (map (fun d => 1600 + d) [0; 50; 0.25]))
       (b64.Scalar 500) (b64.Scalar 1600) (b64.Scalar 200)
     = b64.gaussian_partial_I b64.reference
         (b64.Array (map (fun d => 1600 - d) [0; 50; 0.25]))
         (b64.Scalar 500) (b64.Scalar 1600) (b64.Scalar 200).
Proof.
  assert (H : Forall
                (fun d => ((1600 + d) - 1600 =? - ((1600 - d) - 1600)) = true)
                [0; 50; 0.25])
    by (repeat constructor).
  split; [exact H | ].
  exact (proj1 (@partials_even_about_centre b64.reference 500 1600 200
                  [0; 50; 0.25] H)).
Defined.

(** X13.  [hessian_product] does not check its step: with epsilon = 0 (or
    -0) and a direction block of as many rows as samples it returns a block
    of that many rows none of whose entries is finite, each being a
    quotient by zero. *)
Theorem hessian_product_zero_epsilon
    (L : b64.libm) (xs : list float) (I mu sigma : float)
    (d : b64.block) (epsilon : float) :
  length d = length xs -> (epsilon =? 0) = true ->
  exists hv : b64.block,
    b64.hessian_product L xs I mu sigma d epsilon = Ok hv
    /\ length hv = length xs
    /\ Forall (fun r => is_finite (b64.col0 r) = false
                        /\ is_finite (b64.col1 r) = false
                        /\ is_finite (b64.col2 r) = false) hv.
Proof.
  intros Hl He. eexists. split; [apply hessian64_rows; exact Hl | split].
  - rewrite length_map2_min. lia.
  - apply Forall_forall. intros r Hr.
    unfold map2 in Hr. apply in_map_iff in Hr. destruct Hr as [p [<- _]].
    unfold b64.row_map. cbn [b64.col0 b64.col1 b64.col2].
    repeat split; apply float_div_zero_not_finite; exact He.
Qed.

Lemma hessian_product_zero_epsilon_witness :
  length [b64.Row 1 0 0] = length [1500]
  /\ (0 =? 0) = true
  /\ exists hv : b64.block,
       b64.hessian_product b64.reference [1500] 500 1600 200
         [b64.Row 1 0 0] 0 = Ok hv
       /\ length hv = length [1500]
       /\ Forall (fun r => is_finite (b64.col0 r) = false
                           /\ is_finite (b64.col1 r) = false
                           /\ is_finite (b64.col2 r) = false) hv.
Proof.
  split; [reflexivity | split; [reflexivity | ]].
  exact (@hessian_product_zero_epsilon b64.reference [1500] 500 1600 200
           [b64.Row 1 0 0] 0 eq_refl eq_refl).
Defined.

Lemma length_setitem64 l i v : length (b64.setitem l i v) = length l.
Proof.
  revert i. induction l as [ | h t IH]; intros [ | j]; simpl; auto.
Qed.

Lemma firstn_S_setitem64 l i v :
  (i < length l)%nat ->
  firstn (S i) (b64.setitem l i v) = firstn i l ++ [v].
Proof.
  revert i. induction l as [ | h t IH]; intros [ | j] H; simpl in H.
  - lia.
  - lia.
  - reflexivity.
  - change (h :: firstn (S j) (b64.setitem t j v) = h :: (firstn j t ++ [v])).
    rewrite IH by lia. reflexivity.
Qed.

Lemma pointwise_loop64_invariant dot (vector htd : b64.block) m :
  forall k out_arr,
    (k + m = length vector)%nat -> length out_arr = length vector ->
    (length vector <= length htd)%nat ->
    b64.pointwise_loop dot vector htd (seq k m) out_arr
    = Ok (firstn k out_arr ++ skipn k (map2 dot vector htd)).
Proof.
  induction m as [ | m IH]; intros k out_arr Hk Hout Hlen.
  - cbn [seq b64.pointwise_loop].
    rewrite Nat.add_0_r in Hk. subst k.
    rewrite <- Hout at 1. rewrite firstn_all.
    rewrite skipn_all2; [rewrite app_nil_r; reflexivity | ].
    unfold map2. rewrite length_map, length_combine. lia.
  - cbn [seq b64.pointwise_loop].
    destruct (@nth_error_in_range _ vector k) as [v Hv]; [lia | ].
    destruct (@nth_error_in_range _ htd k) as [h Hh]; [lia | ].
    rewrite (getitem_nth_error _ _ Hv), (getitem_nth_error _ _ Hh).
    cbn [bind].
    rewrite IH by (rewrite ?length_setitem64; lia).
    rewrite firstn_S_setitem64 by lia.
    rewrite (skipn_nth_error _ _ (nth_error_map2 dot _ _ _ Hv Hh)).
    rewrite <- app_assoc. reflexivity.
Qed.

Lemma get_beta64_rows dot (grad_in hess_in dir_vec : b64.block) :
  length grad_in = length dir_vec -> length hess_in = length dir_vec ->
  b64.get_beta dot grad_in hess_in dir_vec
  = Ok (map2 div (map2 dot grad_in hess_in) (map2 dot dir_vec hess_in)).
Proof.
  intros Hg Hh. unfold b64.get_beta, b64.pointwise_dotproduct.
  rewrite !pointwise_loop64_invariant by (rewrite ?repeat_length; lia).
  cbn [bind firstn skipn app].
  apply broadcast2_same_length.
  rewrite !length_map2_min. lia.
Qed.

(** X5.  Called as the notebook calls it, with the gradient block as the
    direction block, [get_beta] divides each inner product of a gradient row
    and a Hessian-vector row by itself: in binary64 the coefficient of a row
    is exactly 1 where that inner product is a non-zero finite number, and
    [nan] where it is zero, infinite or [nan], however [np.dot] sums. *)
Theorem get_beta_gradient_direction
    (dot : b64.row -> b64.row -> float) (grad hess : b64.block)
    (j : nat) (g h : b64.row) :
  length hess = length grad ->
  nth_error grad j = Some g ->
  nth_error hess j = Some h ->
  exists betas,
    b64.get_beta dot grad hess grad = Ok betas
    /\ nth_error betas j
       = Some (if is_finite (dot g h) && negb (dot g h =? 0) then 1 else nan).
Proof.
  intros Hl Ng Nh.
  eexists. split.
  - apply get_beta64_rows; congruence.
  - rewrite (nth_error_map2 div _ _ _
               (nth_error_map2 dot _ _ _ Ng Nh)
               (nth_error_map2 dot _ _ _ Ng Nh)).
    rewrite float_div_self. reflexivity.
Qed.

Lemma get_beta_gradient_direction_witness :
  exists betas,
    b64.get_beta b64.dot3
      [b64.Row 1 2 3; b64.Row 1e200 0 0] [b64.Row 1 0 0; b64.Row 1e200 0 0]
      [b64.Row 1 2 3; b64.Row 1e200 0 0] = Ok betas
    /\ nth_error betas 0 = Some 1
    /\ nth_error betas 1 = Some nan.
Proof.
  destruct (@get_beta_gradient_direction b64.dot3
              [b64.Row 1 2 3; b64.Row 1e200 0 0]
              [b64.Row 1 0 0; b64.Row 1e200 0 0] 0
              (b64.Row 1 2 3) (b64.Row 1 0 0) eq_refl eq_refl eq_refl)
    as [betas [E H0]].
  exists betas. split; [exact E | split; [exact H0 | ]].
  destruct (@get_beta_gradient_direction b64.dot3
              [b64.Row 1 2 3; b64.Row 1e200 0 0]
              [b64.Row 1 0 0; b64.Row 1e200 0 0] 1
              (b64.Row 1e200 0 0) (b64.Row 1e200 0 0)
              eq_refl eq_refl eq_refl)
    as [betas' [E' H1]].
  rewrite E in E'. injection E' as <-. exact H1.
Defined.

End binary64_further.
